(** * generate_ast.py: the grammar-to-declaration generator of jlox

    A shallow embedding of [tool/generate_ast.py].  Python strings are
    sequences of code points; the embedding keeps the code points below
    256, one [ascii] each, so a [str] is a [list ascii].  The built-in
    string methods the script calls ([replace], [strip], [split]) are
    written out in [Module PyStr]; the script itself is in
    [Module GenerateAst]. *)

From Stdlib Require Import Ascii String List Bool Arith Lia.
Import ListNotations.

Open Scope string_scope.
Open Scope list_scope.

(** A Python [str]. *)
Abbreviation str := (list ascii).

(** String literals of the script are read as [str]. *)
Definition lit (s : string) : str := list_ascii_of_string s.
Coercion lit : string >-> list.

Module PyStr.

(** ** Code points *)

Definition LF : ascii := "010"%char.
Definition TAB : ascii := "009"%char.

(** [str.isspace] on one code point below 256: the characters that
    [str.strip()] removes. *)
Definition isspace (c : ascii) : bool :=
  let n := nat_of_ascii c in
  (Nat.leb 9 n && Nat.leb n 13) || (Nat.leb 28 n && Nat.leb n 32)
  || Nat.eqb n 133 || Nat.eqb n 160.

Definition space (c : ascii) : Prop := isspace c = true.

(** ** [str.startswith] and [str.find] *)

Fixpoint startswith (s sep : str) {struct sep} : bool :=
  match sep, s with
  | [], _ => true
  | _ :: _, [] => false
  | a :: sep', b :: s' => Ascii.eqb a b && startswith s' sep'
  end.

(** [find sep s] cuts [s] at the leftmost occurrence of [sep]: the text
    before it and the text after it, or [None] when [sep] does not occur. *)
Fixpoint find (sep s : str) : option (str * str) :=
  if startswith s sep then Some ([], skipn (length sep) s)
  else match s with
       | [] => None
       | c :: s' =>
           match find sep s' with
           | Some (a, r) => Some (c :: a, r)
           | None => None
           end
       end.

(** [sep in s] *)
Definition contains (s sep : str) : bool :=
  match find sep s with
  | Some _ => true
  | None => false
  end.

(** ** [str.split(sep)] for a non-empty separator

    CPython scans left to right, cutting at each occurrence of [sep] and
    resuming after it; the result always has at least one element.  The
    recursion is on the text that is left, which gets shorter at every cut;
    [split_n] carries that bound.  (With an empty separator Python raises
    [ValueError]; every separator in the script is a non-empty literal.) *)
Fixpoint split_n (n : nat) (sep s : str) : list str :=
  match n with
  | 0 => [s]
  | S n' =>
      match find sep s with
      | None => [s]
      | Some (a, r) => a :: split_n n' sep r
      end
  end.

Definition split (s sep : str) : list str := split_n (length s) sep s.

(** [sep.join(parts)] *)
Fixpoint join (sep : str) (parts : list str) : str :=
  match parts with
  | [] => []
  | [p] => p
  | p :: ps => p ++ sep ++ join sep ps
  end.

(** [s.replace(old, new)] for a non-empty [old]: every occurrence found by
    the left-to-right scan of [split] is replaced. *)
Definition replace (s old new : str) : str := join new (split s old).

(** [a == b] *)
Fixpoint str_eq (a b : str) : bool :=
  match a, b with
  | [], [] => true
  | x :: a', y :: b' => Ascii.eqb x y && str_eq a' b'
  | _, _ => false
  end.

(** ** [str.strip()] *)

Fixpoint lstrip (s : str) : str :=
  match s with
  | c :: s' => if isspace c then lstrip s' else s
  | [] => []
  end.

Definition rstrip (s : str) : str := rev (lstrip (rev s)).

Definition strip (s : str) : str := rstrip (lstrip s).

End PyStr.

Import PyStr.

(** ** Exceptions and the script's control flow *)

(** The exceptions of a run.  The parsing statements can raise
    [ValueError], from the unpacking [name, fields = ...] (the spec's
    MalformedRuleError), and [IndexError], from a subscript out of range
    (the spec's MalformedFieldError).  Opening and writing the output file
    can raise [OSError] (with its subclasses, such as FileNotFoundError)
    and [UnicodeEncodeError] (the spec's WriteFailure). *)
Inductive exn : Type := ValueError | IndexError | OSError | UnicodeEncodeError.

Inductive result (A : Type) : Type :=
| Ok (a : A)
| Raise (e : exn).
Arguments Ok {A} a.
Arguments Raise {A} e.

Definition bind {A B} (m : result A) (k : A -> result B) : result B :=
  match m with
  | Ok a => k a
  | Raise e => Raise e
  end.

Notation "x <- m ;; k" := (bind m (fun x => k))
  (at level 61, m at next level, right associativity).
Notation "' p <- m ;; k" := (bind m (fun x => let p := x in k))
  (at level 61, p pattern, m at next level, right associativity).

(** [for x in xs: body], the loop body threading the state it mutates. *)
Fixpoint for_in {A S : Type} (xs : list A) (body : A -> S -> result S) (s : S)
  : result S :=
  match xs with
  | [] => Ok s
  | x :: xs' => s' <- body x s ;; for_in xs' body s'
  end.

(** [a, b = xs] *)
Definition unpack2 (xs : list str) : result (str * str) :=
  match xs with
  | [a; b] => Ok (a, b)
  | _ => Raise ValueError
  end.

(** [xs[i]] for [i >= 0] *)
Definition getitem (xs : list str) (i : nat) : result str :=
  match nth_error xs i with
  | Some x => Ok x
  | None => Raise IndexError
  end.

(** [del xs[-1]] *)
Definition del_last (xs : list str) : result (list str) :=
  match xs with
  | [] => Raise IndexError
  | _ :: _ => Ok (removelast xs)
  end.

(** [xs[-1]] *)
Definition get_last (xs : list str) : result str :=
  match xs with
  | [] => Raise IndexError
  | _ :: _ => Ok (last xs [])
  end.

Module GenerateAst.

(** ** Module-level names *)

Definition grammar : str :=
  [LF] ++
  "Binary : Expr left, Token operator, Expr right;" ++ [LF] ++
  "Grouping : Expr expression;" ++ [LF] ++
  "Literal : Object value;" ++ [LF] ++
  "Unary : Token operator, Expr right;" ++ [LF].

Definition path_name : str := "../lox/Expr.java".

(** [path_name.split('/')[-1].replace('.java', '')] *)
Definition base_name_of (path_name : str) : result str :=
  last_part <- get_last (split path_name "/") ;;
  Ok (replace last_part ".java" []).

(** The names [main] looks up in the module: [grammar], [path_name] and
    [base_name] are bound when the module is loaded, [filename] only by the
    [__main__] block and only when an argument is given. *)
Record globals : Type := {
  g_grammar : str;
  g_path_name : str;
  g_base_name : str;
  g_filename : option str
}.

(** ** The file system

    What the script can observe of the file system it runs in.  A path
    names at most one file: [locate] gives the file that [open(path, 'w')]
    opens (an existing one, or the one it creates), or nothing when the
    open fails; several paths may name the same file.  [data] is the text
    each file holds, if it exists.  [room] is the number of characters the
    output still takes once it is opened (the room on the device, a quota,
    a limit on the size of a file): a write that goes beyond it fails.
    [encodable] tells the characters the encoding of the output file
    has. *)
Record files : Type := {
  locate : str -> option nat;
  data : nat -> option str;
  room : nat;
  encodable : ascii -> bool
}.

(** Statements that act on the file system and may raise: the outcome and
    the file system they leave, also when they raise. *)
Definition io (A : Type) : Type := files -> result A * files.

Definition io_bind {A B : Type} (m : io A) (k : A -> io B) : io B :=
  fun fs =>
    match m fs with
    | (Ok a, fs') => k a fs'
    | (Raise e, fs') => (Raise e, fs')
    end.

Notation "x <~ m ;; k" := (io_bind m (fun x => k))
  (at level 61, m at next level, right associativity).

(** The text of a file, empty when it does not exist. *)
Definition text_of (file : nat) (fs : files) : str :=
  match data fs file with
  | Some t => t
  | None => []
  end.

(** The file system with [text] in [file] and [n] characters of room. *)
Definition store (file : nat) (text : str) (n : nat) (fs : files) : files :=
  {| locate := locate fs;
     data := fun f => if Nat.eqb f file then Some text else data fs f;
     room := n;
     encodable := encodable fs |}.

(** [open(path, 'w')]: the file is created or truncated, unless the open
    fails. *)
Definition open_w (path : str) : io nat :=
  fun fs =>
    match locate fs path with
    | None => (Raise OSError, fs)
    | Some file => (Ok file, store file [] (room fs) fs)
    end.

(** [file.write(line)]: a line with a character the encoding lacks is not
    written at all; a line the device has no room for is written as far as
    the room goes. *)
Definition write (file : nat) (line : str) : io unit :=
  fun fs =>
    if forallb (encodable fs) line then
      if Nat.leb (length line) (room fs)
      then (Ok tt, store file (text_of file fs ++ line)
                     (room fs - length line) fs)
      else (Raise OSError, store file (text_of file fs ++ firstn (room fs) line)
                             0 fs)
    else (Raise UnicodeEncodeError, fs).

(** [file.writelines(lines)] *)
Fixpoint writelines (file : nat) (lines : list str) : io unit :=
  match lines with
  | [] => fun fs => (Ok tt, fs)
  | line :: rest => _ <~ write file line ;; writelines file rest
  end.

(** ** [main] *)

Section Main.

Variable base_name : str.

Definition header : list str :=
  ["package com.craftinginterpreters.lox;" ++ [LF; LF] ++
   "import java.util.List;" ++ [LF; LF] ++
   "class " ++ base_name ++ " {" ++ [LF]].

Definition footer : list str := ["}" : str].

Definition class_line (name : str) : str :=
  [TAB] ++ "static class " ++ name ++ " extends " ++ base_name ++ " {" ++ [LF].

Definition ctor_line (name fields : str) : str :=
  [TAB; TAB] ++ "public " ++ name ++ "(" ++ fields ++ ") {" ++ [LF].

Definition assign_line (field_name : str) : str :=
  [TAB; TAB; TAB] ++ "this." ++ field_name ++ " = " ++ field_name ++ ";" ++ [LF].

Definition ctor_end : str := [TAB; TAB] ++ "}" ++ [LF].

Definition field_line (field : str) : str :=
  [TAB; TAB] ++ "public " ++ field ++ ";" ++ [LF].

Definition class_end : str := [TAB] ++ "}" ++ [LF].

(** [field.split(' ')[1]] *)
Definition field_name_of (field : str) : result str :=
  getitem (split field " ") 1.

(** The first inner loop: one assignment per field. *)
Definition assign_step (field : str) (body : list str) : result (list str) :=
  field_name <- field_name_of field ;;
  Ok (body ++ [assign_line field_name]).

(** The second inner loop: one declaration per field. *)
Definition declare_step (field : str) (body : list str) : result (list str) :=
  Ok (body ++ [field_line field]).

(** [name, fields = line.split(' : ')] *)
Definition split_rule (line : str) : result (str * str) :=
  unpack2 (split line " : ").

(** The body of [for line in lines]. *)
Definition rule_step (line : str) (body : list str) : result (list str) :=
  '(name, fields) <- split_rule line ;;
  let body := body ++ [class_line name] in
  let body := body ++ [ctor_line name fields] in
  body <- for_in (split fields ", ") assign_step body ;;
  let body := body ++ [ctor_end] in
  body <- for_in (split fields ", ") declare_step body ;;
  Ok (body ++ [class_end]).

(** [lines], as [main] computes it from the grammar text. *)
Definition rule_lines (grammar : str) : result (list str) :=
  del_last (split (strip (replace grammar [LF] [])) ";").

(** The loop over [lines], between the header and the footer. *)
Definition emit (lines : list str) : result (list str * list str * list str) :=
  body <- for_in lines rule_step [] ;;
  Ok (header, body, footer).

(** Everything [main] does before it opens the file: the three lists it
    will pass to [writelines]. *)
Definition generate (grammar : str) : result (list str * list str * list str) :=
  lines <- rule_lines grammar ;;
  emit lines.

(** The text the three [writelines] calls put in the file when they all
    get through. *)
Definition written (parts : list str * list str * list str) : str :=
  let '(h, b, f) := parts in concat h ++ concat b ++ concat f.

End Main.

(** [main()]: the outcome and the file system it leaves.  The [with]
    statement closes the file on every way out, so what was written before
    an exception stays in the file. *)
Definition main (G : globals) : io unit :=
  fun fs =>
    match generate (g_base_name G) (g_grammar G) with
    | Raise e => (Raise e, fs)
    | Ok (header, body, footer) =>
        (file <~ open_w (g_path_name G) ;;
         _ <~ writelines file header ;;
         _ <~ writelines file body ;;
         writelines file footer) fs
    end.

(** [filename = argv[1]] *)
Definition with_filename (G : globals) (filename : str) : globals :=
  {| g_grammar := g_grammar G; g_path_name := g_path_name G;
     g_base_name := g_base_name G; g_filename := Some filename |}.

(** The module body followed by the [__main__] block. *)
Definition script (argv : list str) : io unit := fun fs =>
  match base_name_of path_name with
  | Raise e => (Raise e, fs)
  | Ok base_name =>
      let G := {| g_grammar := grammar; g_path_name := path_name;
                  g_base_name := base_name; g_filename := None |} in
      let bound :=
        if Nat.ltb 1 (length argv)
        then filename <- getitem argv 1 ;; Ok (with_filename G filename)
        else Ok G in
      match bound with
      | Raise e => (Raise e, fs)
      | Ok G' => main G' fs
      end
  end.

End GenerateAst.

Import GenerateAst.



(** * Reading declarations back

    A reader of the emitted lines, written from the syntax of the
    declarations and not from the script: it takes a line apart into its
    words and recognises a type declaration, an initializer with its
    parameters, an assignment to a member, a field declaration and a closing
    brace.  The properties of the emitted text are stated with it. *)

Module Reader.

(** The words of a text: its maximal runs of characters that are not white
    space.  [word] is the word being read. *)
Fixpoint words_from (word s : str) : list str :=
  match s with
  | [] => match word with [] => [] | _ :: _ => [word] end
  | c :: s' =>
      if isspace c
      then match word with
           | [] => words_from [] s'
           | _ :: _ => word :: words_from [] s'
           end
      else words_from (word ++ [c]) s'
  end.

Definition words (s : str) : list str := words_from [] s.

(** [static class Name extends Base {] gives the name and the base. *)
Definition read_class (line : str) : option (str * str) :=
  match words line with
  | [w1; w2; name; w4; base; w6] =>
      if str_eq w1 "static" && str_eq w2 "class"
         && str_eq w4 "extends" && str_eq w6 "{"
      then Some (name, base)
      else None
  | _ => None
  end.

(** A word with a semicolon at its end, without the semicolon. *)
Definition before_semicolon (w : str) : option str :=
  match rev w with
  | c :: r => if Ascii.eqb c ";" then Some (rev r) else None
  | [] => None
  end.

(** [Type name] gives the pair. *)
Definition read_typed (text : str) : option (str * str) :=
  match words text with
  | [type; name] => Some (type, name)
  | _ => None
  end.

Fixpoint read_all (texts : list str) : option (list (str * str)) :=
  match texts with
  | [] => Some []
  | t :: rest =>
      match read_typed t, read_all rest with
      | Some p, Some ps => Some (p :: ps)
      | _, _ => None
      end
  end.

(** [public Name(Type1 a, Type2 b) {] gives the name and the parameters,
    each with its type, in their order. *)
Definition read_ctor (line : str) : option (str * list (str * str)) :=
  match find "(" line with
  | Some (before, after) =>
      match find ")" after with
      | Some (params, rest) =>
          match words before, words rest with
          | [w1; name], [w2] =>
              if str_eq w1 "public" && str_eq w2 "{"
              then match read_all (split params ",") with
                   | Some ps => Some (name, ps)
                   | None => None
                   end
              else None
          | _, _ => None
          end
      | None => None
      end
  | None => None
  end.

(** [this.member = value;] gives the member and the value. *)
Definition read_assign (line : str) : option (str * str) :=
  match words line with
  | [lhs; eq; rhs] =>
      if str_eq eq "=" && startswith lhs "this."
      then match before_semicolon rhs with
           | Some value => Some (skipn 5 lhs, value)
           | None => None
           end
      else None
  | _ => None
  end.

(** [public Type name;] gives the type and the name. *)
Definition read_field (line : str) : option (str * str) :=
  match words line with
  | [w1; type; w3] =>
      if str_eq w1 "public"
      then match before_semicolon w3 with
           | Some name => Some (type, name)
           | None => None
           end
      else None
  | _ => None
  end.

Definition is_close (line : str) : bool :=
  match words line with
  | [w] => str_eq w "}"
  | _ => false
  end.

(** What is read of one subtype block. *)
Record Decl : Type := {
  d_name : str;
  d_base : str;
  d_ctor : str;
  d_params : list (str * str);
  d_assigns : list (str * str);
  d_fields : list (str * str)
}.

(** The longest run of lines that [read] accepts, and the lines after it. *)
Fixpoint read_while {A : Type} (read : str -> option A) (lines : list str)
  : list A * list str :=
  match lines with
  | [] => ([], [])
  | l :: rest =>
      match read l with
      | Some a => let (xs, rest') := read_while read rest in (a :: xs, rest')
      | None => ([], lines)
      end
  end.

(** One block: the type declaration, the initializer line, the assignments
    up to the closing brace of the initializer, the field declarations up to
    the closing brace of the type.  The lines after the block are
    returned. *)
Definition read_block (lines : list str) : option (Decl * list str) :=
  match lines with
  | l1 :: l2 :: rest =>
      match read_class l1, read_ctor l2 with
      | Some (name, base), Some (ctor, params) =>
          let (assigns, rest1) := read_while read_assign rest in
          match rest1 with
          | c1 :: rest2 =>
              if is_close c1 then
                let (fields, rest3) := read_while read_field rest2 in
                match rest3 with
                | c2 :: rest4 =>
                    if is_close c2
                    then Some ({| d_name := name; d_base := base;
                                  d_ctor := ctor; d_params := params;
                                  d_assigns := assigns; d_fields := fields |},
                               rest4)
                    else None
                | [] => None
                end
              else None
          | [] => None
          end
      | _, _ => None
      end
  | _ => None
  end.

(** The blocks of a body, one after the other.  Each block takes lines, so
    the number of lines bounds the number of blocks. *)
Fixpoint read_blocks (n : nat) (lines : list str) : option (list Decl) :=
  match lines with
  | [] => Some []
  | _ :: _ =>
      match n with
      | 0 => None
      | S n' =>
          match read_block lines with
          | Some (d, rest) =>
              match read_blocks n' rest with
              | Some ds => Some (d :: ds)
              | None => None
              end
          | None => None
          end
      end
  end.

Definition read_body (lines : list str) : option (list Decl) :=
  read_blocks (length lines) lines.

End Reader.

Import Reader.

(** * The data model and the notions the properties are stated with *)

Module Model.

(** A field is a type name and a field name; a rule is a name and its
    fields, in order. *)
Record Field : Type := { f_type : str; f_name : str }.
Record Rule : Type := { r_name : str; r_fields : list Field }.

(** The grammar notation: [Name : Type1 field1, Type2 field2]; each clause
    of a grammar text is closed by a semicolon. *)
Definition field_text (f : Field) : str := f_type f ++ " " ++ f_name f.

Definition fields_text (fs : list Field) : str := join ", " (map field_text fs).

Definition rule_text (r : Rule) : str :=
  r_name r ++ " : " ++ fields_text (r_fields r).

Definition clauses (rs : list Rule) : str :=
  concat (map (fun r => rule_text r ++ ";") rs).

(** Names are non-empty and free of white space, of the punctuation of the
    notation and of parentheses; a well-formed rule has such names and at
    least one field. *)
Definition ident_char (c : ascii) : bool :=
  negb (isspace c || Ascii.eqb c "," || Ascii.eqb c ":" || Ascii.eqb c ";"
        || Ascii.eqb c "(" || Ascii.eqb c ")").

Definition ident (s : str) : bool :=
  match s with
  | [] => false
  | _ :: _ => forallb ident_char s
  end.

Definition wf_field (f : Field) : bool := ident (f_type f) && ident (f_name f).

Definition wf_rule (r : Rule) : bool :=
  ident (r_name r) &&
  match r_fields r with
  | [] => false
  | _ :: _ => forallb wf_field (r_fields r)
  end.

(** The subtype block of a rule, line by line: the type declaration, the
    initializer with one parameter and one assignment per field, then one
    public field declaration per field. *)
Definition subtype_block (base_name : str) (r : Rule) : list str :=
  [ [TAB] ++ "static class " ++ r_name r ++ " extends " ++ base_name ++ " {"
      ++ [LF];
    [TAB; TAB] ++ "public " ++ r_name r ++ "(" ++ fields_text (r_fields r)
      ++ ") {" ++ [LF] ]
  ++ map (fun f => [TAB; TAB; TAB] ++ "this." ++ f_name f ++ " = " ++ f_name f
                     ++ ";" ++ [LF])
         (r_fields r)
  ++ [ [TAB; TAB] ++ "}" ++ [LF] ]
  ++ map (fun f => [TAB; TAB] ++ "public " ++ field_text f ++ ";" ++ [LF])
         (r_fields r)
  ++ [ [TAB] ++ "}" ++ [LF] ].

(** A word: a non-empty text without white space. *)
Definition word (s : str) : bool :=
  match s with
  | [] => false
  | _ :: _ => forallb (fun c => negb (isspace c)) s
  end.

(** What is to be read of the block of a rule: the name of the type and of
    its initializer, the fields as parameters, one assignment of each field
    name to the member of that name, and the fields as declarations, all in
    the order of the rule. *)
Definition declaration (base_name : str) (r : Rule) : Decl :=
  {| d_name := r_name r;
     d_base := base_name;
     d_ctor := r_name r;
     d_params := map (fun f => (f_type f, f_name f)) (r_fields r);
     d_assigns := map (fun f => (f_name f, f_name f)) (r_fields r);
     d_fields := map (fun f => (f_type f, f_name f)) (r_fields r) |}.

(** [sep] occurs in [s] at offset [i]. *)
Definition occurs_at (sep s : str) (i : nat) : Prop :=
  exists a r, s = a ++ sep ++ r /\ length a = i.

Definition occurs (sep s : str) : Prop := exists i, occurs_at sep s i.

(** Two occurrences at different offsets; they may overlap. *)
Definition occurs_more_than_once (sep s : str) : Prop :=
  exists i j, i <> j /\ occurs_at sep s i /\ occurs_at sep s j.

(** Two occurrences that do not overlap. *)
Definition occurs_twice_apart (sep s : str) : Prop :=
  exists a b c, s = a ++ sep ++ b ++ sep ++ c.

(** The rules of the spec's two-clause scenario. *)
Definition rule_Binary : Rule :=
  {| r_name := "Binary";
     r_fields := [ {| f_type := "Expr"; f_name := "left" |};
                   {| f_type := "Token"; f_name := "operator" |};
                   {| f_type := "Expr"; f_name := "right" |} ] |}.

Definition rule_Unary : Rule :=
  {| r_name := "Unary";
     r_fields := [ {| f_type := "Token"; f_name := "operator" |};
                   {| f_type := "Expr"; f_name := "right" |} ] |}.

(** The same rule under another name. *)
Definition renamed (name : str) (r : Rule) : Rule :=
  {| r_name := name; r_fields := r_fields r |}.

(** A grammar text in which white space may precede the name of a clause:
    each rule comes with the blanks written before its name.  [spelled] is
    the name as the text has it, blanks included. *)
Definition blank (s : str) : bool := forallb isspace s.

Definition spelled (pr : str * Rule) : str := fst pr ++ r_name (snd pr).

Definition spaced_rule_text (pr : str * Rule) : str :=
  fst pr ++ rule_text (snd pr).

Definition spaced_clauses (prs : list (str * Rule)) : str :=
  concat (map (fun pr => spaced_rule_text pr ++ ";") prs).

Definition wf_spaced (pr : str * Rule) : bool :=
  blank (fst pr) && wf_rule (snd pr).

(** The block of a rule whose name is spelled with blanks before it. *)
Definition spaced_block (base_name : str) (pr : str * Rule) : list str :=
  subtype_block base_name (renamed (spelled pr) (snd pr)).

(** The scenario's grammar text, on one line as the spec writes it. *)
Definition scenario_one_line : str :=
  "Binary : Expr left, Token operator, Expr right; Unary : Token operator, Expr right;".

(** The module-level names as the script binds them, before the
    [__main__] block runs. *)
Definition script_globals : globals :=
  {| g_grammar := grammar; g_path_name := path_name;
     g_base_name := "Expr"; g_filename := None |}.

Definition rule_Grouping : Rule :=
  {| r_name := "Grouping";
     r_fields := [ {| f_type := "Expr"; f_name := "expression" |} ] |}.

Definition rule_Literal : Rule :=
  {| r_name := "Literal";
     r_fields := [ {| f_type := "Object"; f_name := "value" |} ] |}.

(** The rules of the script's own grammar. *)
Definition script_rules : list Rule :=
  [rule_Binary; rule_Grouping; rule_Literal; rule_Unary].

(** The text [main] splits into clauses: the grammar without its line
    breaks and without white space around it. *)
Definition normalized (grammar : str) : str := strip (replace grammar [LF] []).

(** A clause the loop body gets through: it unpacks into a name and a field
    list, and every field string of the list has a space. *)
Definition parses (line : str) : bool :=
  match split_rule line with
  | Ok (_, fields) =>
      forallb (fun field => contains field " ") (split fields ", ")
  | Raise _ => false
  end.

(** The exception the loop body raises on a clause that does not parse: the
    unpacking comes first, the fields after it. *)
Definition clause_error (line : str) : exn :=
  match split_rule line with
  | Ok _ => IndexError
  | Raise _ => ValueError
  end.

(** The device takes [text]: it has the characters and the room. *)
Definition writable (fs : files) (text : str) : Prop :=
  forallb (encodable fs) text = true /\ length text <= room fs.

(** A file system with one file that can be opened, under the name [path],
    not yet created, with room for [n] characters of any kind. *)
Definition disk (path : str) (n : nat) : files :=
  {| locate := fun p => if str_eq p path then Some 0 else None;
     data := fun _ => None;
     room := n;
     encodable := fun _ => true |}.

(** A file system in which every path opens the same file, which holds a
    text already, with room for [n] characters of any kind. *)
Definition used_disk (n : nat) : files :=
  {| locate := fun _ => Some 7;
     data := fun _ => Some ("an older text" : str);
     room := n;
     encodable := fun _ => true |}.

(** Other module-level names with the clauses of the script's grammar: the
    text is on one line and goes on after its last semicolon, the output
    path is another one and [filename] is bound. *)
Definition other_globals : globals :=
  {| g_grammar := "Binary : Expr left, Token operator, Expr right;Grouping : Expr expression;Literal : Object value;Unary : Token operator, Expr right;ignored";
     g_path_name := "Expr.java";
     g_base_name := "Expr";
     g_filename := Some ("x" : str) |}.

(** The characters [replace] keeps when it deletes [c]. *)
Definition other_than (c x : ascii) : bool := negb (Ascii.eqb x c).

Definition blank_or_semicolon (c : ascii) : bool :=
  isspace c || Ascii.eqb c ";".

Definition has_semicolon (s : str) : bool := existsb (Ascii.eqb ";") s.

End Model.

Import Model.

(** Closes a goal [~ In c s] from a lemma that lists the characters [s] can
    hold, when [c] is none of them. *)
Ltac absent_char H :=
  let X := fresh in
  intros X; apply H in X;
  repeat (destruct X as [X|X]); discriminate X.

(** * Properties of the string built-ins *)

Example split_ex : split "a : b : c" " : " = ["a" : str; "b" : str; "c" : str].
Proof. reflexivity. Qed.

Example replace_ex : replace "../lox/Expr.java" ".java" [] = "../lox/Expr".
Proof. reflexivity. Qed.

Example base_name_ex : base_name_of path_name = Ok ("Expr" : str).
Proof. reflexivity. Qed.

Section SplitFacts.

Lemma startswith_inv (sep s : str) :
  startswith s sep = true -> s = sep ++ skipn (length sep) s.
Proof.
  revert s; induction sep as [|a sep IH]; intros [|b s] H; simpl in *;
    try reflexivity; try discriminate.
  apply andb_prop in H as [Hab Hs].
  apply Ascii.eqb_eq in Hab; subst b.
  f_equal; now apply IH.
Qed.

Lemma startswith_app (sep r : str) : startswith (sep ++ r) sep = true.
Proof.
  induction sep as [|a sep IH]; simpl; [reflexivity|].
  now rewrite Ascii.eqb_refl.
Qed.

Lemma skipn_sep_app (sep r : str) : skipn (length sep) (sep ++ r) = r.
Proof. induction sep; simpl; auto. Qed.

Lemma startswith_head (c : ascii) (sep s : str) :
  startswith s (c :: sep) = true -> exists s', s = c :: s'.
Proof.
  destruct s as [|b s]; simpl; [discriminate|].
  intros H; apply andb_prop in H as [H _].
  apply Ascii.eqb_eq in H; subst; eauto.
Qed.

(** A successful [find] cuts the text around an occurrence. *)
Lemma find_Some (sep s a r : str) :
  find sep s = Some (a, r) -> s = a ++ sep ++ r.
Proof.
  revert a r; induction s as [|c s IH]; intros a r; simpl.
  - destruct (startswith [] sep) eqn:E; [|discriminate].
    intros [= <- <-]. now apply startswith_inv in E.
  - destruct (startswith (c :: s) sep) eqn:E.
    + intros [= <- <-]. now apply startswith_inv in E.
    + destruct (find sep s) as [[a' r']|]; [|discriminate].
      intros [= <- <-]. simpl. f_equal. now apply IH.
Qed.

(** [find] fails only when the separator does not occur. *)
Lemma find_None (sep s : str) :
  find sep s = None -> forall a r, s <> a ++ sep ++ r.
Proof.
  induction s as [|c s IH]; simpl.
  - destruct (startswith [] sep) eqn:E; [discriminate|].
    intros _ a r H. destruct a; simpl in H.
    + rewrite H, startswith_app in E. discriminate.
    + discriminate.
  - destruct (startswith (c :: s) sep) eqn:E; [discriminate|].
    destruct (find sep s) as [[a' r']|] eqn:F; [discriminate|].
    intros _ a r H. destruct a as [|x a]; simpl in H.
    + rewrite H, startswith_app in E. discriminate.
    + injection H as _ H. now apply (IH eq_refl a r).
Qed.

(** The occurrence [find] reports is the leftmost one. *)
Lemma find_leftmost (sep s a r : str) :
  find sep s = Some (a, r) ->
  forall a' r', s = a' ++ sep ++ r' -> length a <= length a'.
Proof.
  revert a r; induction s as [|c s IH]; intros a r; simpl.
  - destruct (startswith [] sep); [|discriminate].
    intros [= <- <-] a' r' _. simpl. lia.
  - destruct (startswith (c :: s) sep) eqn:E.
    + intros [= <- <-] a' r' _. simpl. lia.
    + destruct (find sep s) as [[a0 r0]|] eqn:F; [|discriminate].
      intros [= <- <-] a' r' H. destruct a' as [|x a']; simpl in H.
      * rewrite H, startswith_app in E. discriminate.
      * injection H as _ H. simpl. apply le_n_S. eapply IH; eauto.
Qed.

(** A text in which some character of the separator is absent has no
    occurrence of it. *)
Lemma find_absent (sep s : str) (c : ascii) :
  In c sep -> ~ In c s -> find sep s = None.
Proof.
  intros Hc Hs. destruct (find sep s) as [[a r]|] eqn:F; [|reflexivity].
  apply find_Some in F. exfalso. apply Hs. subst s.
  apply in_or_app. right. apply in_or_app. now left.
Qed.

Lemma find_here (sep r : str) : find sep (sep ++ r) = Some ([], r).
Proof.
  assert (E : forall s, startswith s sep = true ->
                        find sep s = Some ([], skipn (length sep) s)).
  { intros [|x s] H; simpl; now rewrite H. }
  rewrite E by apply startswith_app. now rewrite skipn_sep_app.
Qed.

(** When the separator's first character is absent from [p], the leftmost
    occurrence in [p ++ sep ++ r] is the one right after [p]. *)
Lemma find_after (c : ascii) (sep p r : str) :
  ~ In c p -> find (c :: sep) (p ++ (c :: sep) ++ r) = Some (p, r).
Proof.
  induction p as [|x p IH]; intros Hp.
  - exact (find_here (c :: sep) r).
  - assert (Hx : Ascii.eqb c x = false).
    { apply Ascii.eqb_neq. intros ->. apply Hp. now left. }
    assert (Hp' : ~ In c p) by (intros H; apply Hp; now right).
    change ((x :: p) ++ (c :: sep) ++ r) with (x :: (p ++ (c :: sep) ++ r)).
    cbn [find startswith]. rewrite Hx. cbn [andb].
    now rewrite (IH Hp').
Qed.

End SplitFacts.

Lemma join_cons (sep p : str) (ps : list str) :
  ps <> [] -> join sep (p :: ps) = p ++ sep ++ join sep ps.
Proof. destruct ps; [contradiction|reflexivity]. Qed.

Lemma join_nil_sep (ps : list str) : join [] ps = concat ps.
Proof.
  induction ps as [|p ps IH]; [reflexivity|].
  destruct ps as [|q ps]; [simpl; now rewrite app_nil_r|].
  rewrite join_cons by discriminate. now rewrite IH.
Qed.

(** ** [split] on a fixed non-empty separator *)

Section SplitOn.

Variable sep : str.
Hypothesis sep_nonempty : sep <> [].

Lemma find_shorter (s a r : str) :
  find sep s = Some (a, r) -> length r < length s.
Proof.
  intros H. apply find_Some in H. subst s.
  rewrite !length_app. destruct sep; [contradiction|simpl; lia].
Qed.

Lemma find_nil : find sep [] = None.
Proof. destruct sep; [contradiction|reflexivity]. Qed.

(** The bound of [split_n] is never reached: any bound at least the length
    of the text gives the same list. *)
Lemma split_n_enough (n m : nat) (s : str) :
  length s <= n -> length s <= m -> split_n n sep s = split_n m sep s.
Proof.
  revert m s; induction n as [|n IH]; intros [|m] s Hn Hm; simpl;
    try reflexivity.
  - destruct s; [|simpl in Hn; lia]. now rewrite find_nil.
  - destruct s; [|simpl in Hm; lia]. now rewrite find_nil.
  - destruct (find sep s) as [[a r]|] eqn:F; [|reflexivity].
    apply find_shorter in F. f_equal. apply IH; lia.
Qed.

(** The equation [split] satisfies: cut at the leftmost occurrence and go on
    with the rest. *)
Lemma split_eq (s : str) :
  split s sep = match find sep s with
                | None => [s]
                | Some (a, r) => a :: split r sep
                end.
Proof.
  unfold split. destruct s as [|c s].
  - now rewrite find_nil.
  - cbn [length split_n].
    destruct (find sep (c :: s)) as [[a r]|] eqn:F; [|reflexivity].
    apply find_shorter in F. simpl in F. f_equal. apply split_n_enough; lia.
Qed.

Lemma split_none (s : str) : find sep s = None -> split s sep = [s].
Proof. intros F. now rewrite split_eq, F. Qed.

Lemma split_cut (s a r : str) :
  find sep s = Some (a, r) -> split s sep = a :: split r sep.
Proof. intros F. now rewrite split_eq, F. Qed.

(** Induction along the cuts of [split]. *)
Lemma split_ind (P : str -> list str -> Prop) :
  (forall s, find sep s = None -> P s [s]) ->
  (forall s a r, find sep s = Some (a, r) ->
                 P r (split r sep) -> P s (a :: split r sep)) ->
  forall s, P s (split s sep).
Proof.
  intros Hnone Hcut s.
  remember (length s) as n eqn:Hn.
  revert s Hn. induction n as [n IH] using lt_wf_ind. intros s ->.
  destruct (find sep s) as [[a r]|] eqn:F.
  - rewrite (split_cut _ _ _ F). apply (Hcut _ _ _ F).
    apply (IH (length r)); [now apply find_shorter in F|reflexivity].
  - rewrite (split_none _ F). now apply Hnone.
Qed.

Lemma split_not_nil (s : str) : split s sep <> [].
Proof. rewrite split_eq. destruct (find sep s) as [[? ?]|]; discriminate. Qed.

(** Joining the pieces with the separator gives the text back. *)
Lemma join_split (s : str) : join sep (split s sep) = s.
Proof.
  apply (split_ind (fun s l => join sep l = s)); clear s.
  - reflexivity.
  - intros s a r F IH. apply find_Some in F. subst s.
    rewrite join_cons by apply split_not_nil. now rewrite IH.
Qed.

(** No piece contains the separator. *)
Lemma split_pieces_free (s : str) :
  Forall (fun p => find sep p = None) (split s sep).
Proof.
  apply (split_ind (fun _ l => Forall (fun p => find sep p = None) l)); clear s.
  - intros s F. now constructor.
  - intros s a r F IH. constructor; [|assumption].
    destruct (find sep a) as [[a1 r1]|] eqn:Fa; [|reflexivity].
    exfalso. pose proof (find_Some _ _ _ _ Fa) as Ea.
    pose proof (find_Some _ _ _ _ F) as Es.
    assert (L : length a <= length a1).
    { apply (find_leftmost _ _ _ _ F a1 (r1 ++ sep ++ r)).
      rewrite Es, Ea. now rewrite <- !app_assoc. }
    subst a. rewrite !length_app in L.
    destruct sep; [contradiction|simpl in L; lia].
Qed.

(** Every property of the characters of the text holds of the characters of
    the pieces. *)
Lemma split_Forall (P : ascii -> Prop) (s : str) :
  Forall P s -> Forall (Forall P) (split s sep).
Proof.
  apply (split_ind (fun s l => Forall P s -> Forall (Forall P) l)); clear s.
  - intros s _ H. now constructor.
  - intros s a r F IH H. apply find_Some in F. subst s.
    apply Forall_app in H as [Ha H]. apply Forall_app in H as [_ Hr].
    constructor; auto.
Qed.

(** A character that is not in the separator stays in some piece. *)
Lemma split_keeps (c : ascii) (s : str) :
  In c s -> ~ In c sep -> exists p, In p (split s sep) /\ In c p.
Proof.
  intros Hc Hsep. revert Hc.
  apply (split_ind (fun s l => In c s -> exists p, In p l /\ In c p)); clear s.
  - intros s _ H. exists s. split; [now left|assumption].
  - intros s a r F IH H. apply find_Some in F. subst s.
    apply in_app_or in H as [H|H].
    + exists a. split; [now left|assumption].
    + apply in_app_or in H as [H|H]; [contradiction|].
      destruct (IH H) as (p & Hp & Hcp). exists p. split; [now right|assumption].
Qed.

End SplitOn.

(** ** [replace] *)

Lemma replace_absent (s old new : str) (c : ascii) :
  In c old -> ~ In c s -> replace s old new = s.
Proof.
  intros Hc Hs. unfold replace.
  assert (Hne : old <> []) by (intros ->; contradiction).
  now rewrite (split_none old Hne s (find_absent old s c Hc Hs)).
Qed.

Lemma replace_delete_Forall (P : ascii -> Prop) (s old : str) :
  old <> [] -> Forall P s -> Forall P (replace s old []).
Proof.
  intros Hne H. unfold replace. rewrite join_nil_sep.
  apply Forall_concat. now apply split_Forall.
Qed.

Lemma join_In (c : ascii) (new p : str) (ps : list str) :
  In p ps -> In c p -> In c (join new ps).
Proof.
  induction ps as [|q ps IH]; [contradiction|].
  intros [->|Hp] Hc.
  - destruct ps; [assumption|]. rewrite join_cons by discriminate.
    apply in_or_app. now left.
  - destruct ps as [|q' ps]; [contradiction|].
    rewrite join_cons by discriminate.
    apply in_or_app. right. apply in_or_app. right. now apply IH.
Qed.

Lemma replace_keeps (c : ascii) (s old new : str) :
  old <> [] -> In c s -> ~ In c old -> In c (replace s old new).
Proof.
  intros Hne Hs Hold.
  destruct (split_keeps old Hne c s Hs Hold) as (p & Hp & Hcp).
  unfold replace. now apply (join_In c new p).
Qed.

(** ** [strip] *)

Lemma lstrip_decomp (s : str) :
  exists ws, s = ws ++ lstrip s /\ Forall space ws.
Proof.
  induction s as [|c s (ws & E & H)]; [now exists []|].
  simpl. destruct (isspace c) eqn:Hc.
  - exists (c :: ws). split; [simpl; now f_equal|now constructor].
  - now exists [].
Qed.

Lemma lstrip_spaces (s : str) : Forall space s -> lstrip s = [].
Proof.
  induction 1 as [|c s Hc _ IH]; [reflexivity|].
  simpl. unfold space in Hc. now rewrite Hc.
Qed.

Lemma lstrip_head (c : ascii) (s : str) :
  isspace c = false -> lstrip (c :: s) = c :: s.
Proof. intros H. simpl. now rewrite H. Qed.

Lemma rstrip_decomp (s : str) :
  exists ws, s = rstrip s ++ ws /\ Forall space ws.
Proof.
  destruct (lstrip_decomp (rev s)) as (ws & E & H).
  exists (rev ws). split.
  - unfold rstrip. rewrite <- rev_app_distr, <- E. now rewrite rev_involutive.
  - now apply Forall_rev.
Qed.

Lemma rstrip_last (s : str) (c : ascii) :
  isspace c = false -> rstrip (s ++ [c]) = s ++ [c].
Proof.
  intros H. unfold rstrip. rewrite rev_app_distr. simpl.
  rewrite H. simpl. now rewrite rev_involutive.
Qed.

Lemma strip_decomp (s : str) :
  exists l r, s = l ++ strip s ++ r /\ Forall space l /\ Forall space r.
Proof.
  destruct (lstrip_decomp s) as (l & El & Hl).
  destruct (rstrip_decomp (lstrip s)) as (r & Er & Hr).
  exists l, r. unfold strip. now rewrite <- Er.
Qed.

Lemma strip_spaces (s : str) : Forall space s -> strip s = [].
Proof. intros H. unfold strip. now rewrite (lstrip_spaces s H). Qed.

(** A text that starts and ends with a character that is not white space
    is its own stripped form. *)
Lemma strip_tight (c d : ascii) (m : str) :
  isspace c = false -> isspace d = false ->
  strip (c :: m ++ [d]) = c :: m ++ [d].
Proof.
  intros Hc Hd. unfold strip. rewrite (lstrip_head c _ Hc).
  change (c :: m ++ [d]) with ((c :: m) ++ [d]). now apply rstrip_last.
Qed.

Lemma strip_Forall (P : ascii -> Prop) (s : str) :
  Forall P s -> Forall P (strip s).
Proof.
  intros H. destruct (strip_decomp s) as (l & r & E & _ & _).
  rewrite E in H. apply Forall_app in H as [_ H].
  now apply Forall_app in H as [H _].
Qed.

Lemma strip_keeps (c : ascii) (s : str) :
  In c s -> isspace c = false -> In c (strip s).
Proof.
  intros Hs Hc. destruct (strip_decomp s) as (l & r & E & Hl & Hr).
  assert (N : forall ws, Forall space ws -> ~ In c ws).
  { intros ws Hws Hin. rewrite Forall_forall in Hws.
    specialize (Hws c Hin). unfold space in Hws. congruence. }
  rewrite E in Hs. apply in_app_or in Hs as [Hs|Hs]; [now apply N in Hs|].
  apply in_app_or in Hs as [Hs|Hs]; [assumption|now apply N in Hs].
Qed.

(** * Occurrences of a separator *)

Lemma occurs_find (sep s : str) : occurs sep s <-> find sep s <> None.
Proof.
  split.
  - intros (i & a & r & E & _) F. exact (find_None sep s F a r E).
  - destruct (find sep s) as [[a r]|] eqn:F; [|congruence].
    intros _. exists (length a), a, r. split; [now apply find_Some|reflexivity].
Qed.

Lemma not_occurs_find (sep s : str) : ~ occurs sep s <-> find sep s = None.
Proof.
  rewrite occurs_find. destruct (find sep s) as [p|].
  - split; [intros H; exfalso; apply H; discriminate|discriminate].
  - split; [reflexivity|intros _ H; now apply H].
Qed.

Lemma contains_occurs (sep s : str) : contains s sep = true <-> occurs sep s.
Proof.
  rewrite occurs_find. unfold contains.
  destruct (find sep s); split; congruence.
Qed.

(** Of two occurrences, the text after the earlier one contains the text
    after the later one. *)
Lemma rest_of_earlier (sep a r a' r' : str) :
  a ++ sep ++ r = a' ++ sep ++ r' -> length a <= length a' ->
  exists x, r = x ++ r'.
Proof.
  intros E L. rewrite !app_assoc in E.
  apply app_eq_app in E as (l & [[E1 E2]|[E1 E2]]).
  - assert (l = []) as ->.
    { apply (f_equal (@length ascii)) in E1. rewrite !length_app in E1.
      destruct l; [reflexivity|simpl in E1; lia]. }
    exists []. now rewrite E2.
  - now exists l.
Qed.

Lemma find_char_None (c : ascii) (s : str) : find [c] s = None <-> ~ In c s.
Proof.
  split.
  - intros F H. apply in_split in H as (a & r & ->).
    exact (find_None [c] _ F a r eq_refl).
  - apply find_absent. now left.
Qed.

(** The text before the leftmost occurrence of a character is free of it. *)
Lemma find_char_before (c : ascii) (s a r : str) :
  find [c] s = Some (a, r) -> ~ In c a.
Proof.
  intros F H. apply in_split in H as (x & y & ->).
  pose proof (find_Some _ _ _ _ F) as E.
  assert (L : length (x ++ c :: y) <= length x).
  { apply (find_leftmost _ _ _ _ F x (y ++ [c] ++ r)).
    rewrite E. rewrite <- !app_assoc. reflexivity. }
  rewrite length_app in L. simpl in L. lia.
Qed.

(** * The two parsing steps *)

Lemma sep_rule_nonempty : lit " : " <> [].
Proof. discriminate. Qed.

Lemma sep_field_nonempty : lit ", " <> [].
Proof. discriminate. Qed.

Lemma sep_space_nonempty : lit " " <> [].
Proof. discriminate. Qed.

Lemma sep_clause_nonempty : lit ";" <> [].
Proof. discriminate. Qed.

(** What [split_rule] returns, by the first two scans for the separator. *)
Lemma split_rule_cases (line : str) :
  split_rule line =
  match find " : " line with
  | None => Raise ValueError
  | Some (a, r) =>
      match find " : " r with
      | None => Ok (a, r)
      | Some _ => Raise ValueError
      end
  end.
Proof.
  unfold split_rule. rewrite (split_eq _ sep_rule_nonempty).
  destruct (find " : " line) as [[a r]|]; [|reflexivity].
  rewrite (split_eq _ sep_rule_nonempty r).
  destruct (find " : " r) as [[b c]|]; [|reflexivity].
  pose proof (split_not_nil _ sep_rule_nonempty c) as N.
  destruct (split c " : "); [contradiction|reflexivity].
Qed.

(** What [field_name_of] returns, by the first two scans for a space. *)
Lemma field_name_of_cases (field : str) :
  field_name_of field =
  match find " " field with
  | None => Raise IndexError
  | Some (_, r) =>
      match find " " r with
      | None => Ok r
      | Some (n, _) => Ok n
      end
  end.
Proof.
  unfold field_name_of. rewrite (split_eq _ sep_space_nonempty).
  destruct (find " " field) as [[a r]|]; [|reflexivity].
  rewrite (split_eq _ sep_space_nonempty r).
  destruct (find " " r) as [[b c]|]; reflexivity.
Qed.

(** * Splitting a rule clause *)

Lemma app_inv_length {A : Type} (a b x y : list A) :
  a ++ x = b ++ y -> length a = length b -> a = b /\ x = y.
Proof.
  revert b; induction a as [|h a IH]; intros [|k b] E L; simpl in *;
    try discriminate.
  - now split.
  - injection E as -> E. injection L as L.
    destruct (IH b E L) as [-> ->]. now split.
Qed.

(** [find] returns the cut at the leftmost occurrence, and only that. *)
Lemma find_Some_iff (sep s a r : str) :
  find sep s = Some (a, r) <->
  s = a ++ sep ++ r /\ (forall i, occurs_at sep s i -> length a <= i).
Proof.
  split.
  - intros F. split; [now apply find_Some|].
    intros i (a' & r' & E & <-). exact (find_leftmost _ _ _ _ F a' r' E).
  - intros [E Hleft].
    destruct (find sep s) as [[a' r']|] eqn:F.
    + pose proof (find_Some _ _ _ _ F) as E'.
      assert (L : length a' = length a).
      { apply Nat.le_antisymm.
        - exact (find_leftmost _ _ _ _ F a r E).
        - apply Hleft. exists a', r'. now split. }
      rewrite E in E'. symmetry in E'.
      destruct (app_inv_length _ _ _ _ E' L) as [-> E2].
      apply app_inv_head in E2. now subst.
    + exfalso. exact (find_None _ _ F a r E).
Qed.

(** Two occurrences that do not overlap are what two successive scans
    find. *)
Lemma twice_apart_find (sep s : str) :
  occurs_twice_apart sep s <->
  exists a r b c, find sep s = Some (a, r) /\ find sep r = Some (b, c).
Proof.
  split.
  - intros (a' & b' & c' & E).
    destruct (find sep s) as [[a r]|] eqn:F;
      [|exfalso; exact (find_None _ _ F a' _ E)].
    pose proof (find_Some _ _ _ _ F) as Es.
    assert (L : length a <= length a') by exact (find_leftmost _ _ _ _ F a' _ E).
    rewrite Es in E. destruct (rest_of_earlier _ _ _ _ _ E L) as (x & Er).
    destruct (find sep r) as [[b c]|] eqn:Fr.
    + now exists a, r, b, c.
    + exfalso. apply (find_None _ _ Fr (x ++ b') c').
      rewrite Er. now rewrite <- app_assoc.
  - intros (a & r & b & c & F & Fr).
    apply find_Some in F. apply find_Some in Fr.
    exists a, b, c. now rewrite <- Fr.
Qed.

(** C5, as stated, fails: in the clause [A : : B c] the separator occurs at
    offsets 1 and 3 (the two occurrences share a blank), yet the clause is
    split into [A] and [: B c] and no error is raised. *)
Lemma C5_overlapping_separators_accepted :
  ~ (split_rule "A : : B c" = Raise ValueError <->
     ~ occurs " : " "A : : B c" \/ occurs_more_than_once " : " "A : : B c").
Proof.
  intros [_ H].
  assert (E : split_rule "A : : B c" = Ok ("A" : str, ": B c" : str))
    by reflexivity.
  rewrite E in H. discriminate H. right.
  exists 1, 3. split; [discriminate|]. split.
  - exists ("A" : str), (": B c" : str). split; reflexivity.
  - exists ("A :" : str), ("B c" : str). split; reflexivity.
Qed.

(** C5 (amended): [split_rule] raises [ValueError] exactly when the
    separator is missing from the clause or occurs in it twice without
    overlap; it raises nothing else; and it returns [(name, fields)] exactly
    when the clause is [name], the separator, [fields], no occurrence of the
    separator starts before the end of [name], and none is in [fields]. *)
Theorem C5_split_rule_spec (line : str) :
  (split_rule line = Raise ValueError <->
   ~ occurs " : " line \/ occurs_twice_apart " : " line)
  /\ (forall e, split_rule line = Raise e -> e = ValueError)
  /\ (forall name fields,
        split_rule line = Ok (name, fields) <->
        line = name ++ " : " ++ fields
        /\ (forall i, occurs_at " : " line i -> length name <= i)
        /\ ~ occurs " : " fields).
Proof.
  rewrite not_occurs_find, twice_apart_find.
  assert (Hok : forall name fields,
    split_rule line = Ok (name, fields) <->
    find " : " line = Some (name, fields) /\ find " : " fields = None).
  { intros name fields. rewrite split_rule_cases.
    destruct (find " : " line) as [[a r]|] eqn:F.
    - destruct (find " : " r) as [[b c]|] eqn:Fr.
      + split; [discriminate|]. intros [[= -> ->] N]. congruence.
      + split; [intros [= -> ->]; now split|]. now intros [[= -> ->] _].
    - split; [discriminate|]. intros [[=] _]. }
  split; [|split].
  - rewrite split_rule_cases.
    destruct (find " : " line) as [[a r]|] eqn:F.
    + destruct (find " : " r) as [[b c]|] eqn:Fr.
      * split; [|reflexivity]. intros _. right. now exists a, r, b, c.
      * split; [discriminate|].
        intros [[=]|(a' & r' & b & c & [= <- <-] & Fr')]. congruence.
    + split; [now left|reflexivity].
  - rewrite split_rule_cases. intros e.
    destruct (find " : " line) as [[a r]|]; [|now intros [= <-]].
    destruct (find " : " r) as [[b c]|]; [now intros [= <-]|discriminate].
  - intros name fields. rewrite Hok, find_Some_iff, not_occurs_find.
    tauto.
Qed.

Lemma C5_split_rule_spec_witness :
  split_rule "Unary : Token operator, Expr right"
  = Ok ("Unary" : str, "Token operator, Expr right" : str)
  /\ ~ occurs " : " "Token operator, Expr right".
Proof.
  split; [reflexivity|].
  apply (proj1 (proj2 (proj2 (C5_split_rule_spec
           "Unary : Token operator, Expr right")) "Unary"
           "Token operator, Expr right")).
  reflexivity.
Defined.

(** * The name of a field *)

(** C6, as stated, fails: in the field string [Expr a b] the text after the
    first space is [a b], but the name the script takes is [a]. *)
Lemma C6_name_stops_at_second_space :
  ~ (forall t n : str,
       lit "Expr a b" = t ++ " " ++ n -> ~ In " "%char t ->
       field_name_of "Expr a b" = Ok n).
Proof.
  intros H.
  specialize (H ("Expr" : str) ("a b" : str) eq_refl).
  assert (N : ~ In " "%char ("Expr" : str)).
  { simpl. intros [E|[E|[E|[E|[]]]]]; discriminate E. }
  specialize (H N). discriminate H.
Qed.

(** C6 (amended): [field_name_of] raises [IndexError] exactly when the
    field string has no space, and raises nothing else; otherwise the name
    is the text between the first space and the next one, or the end of the
    string when there is no other space.  So with exactly one space the name
    is everything after it, and with more the name stops at the second. *)
Theorem C6_field_name_of_spec (field : str) :
  (field_name_of field = Raise IndexError <-> ~ In " "%char field)
  /\ (forall e, field_name_of field = Raise e -> e = IndexError)
  /\ (forall t n tail : str,
        field = t ++ " " ++ n ++ tail ->
        ~ In " "%char t -> ~ In " "%char n ->
        tail = [] \/ (exists tail', tail = " " ++ tail') ->
        field_name_of field = Ok n).
Proof.
  rewrite field_name_of_cases. split; [|split].
  - change (lit " ") with [" "%char].
    rewrite <- find_char_None.
    destruct (find [" "%char] field) as [[a r]|]; [|tauto].
    destruct (find [" "%char] r) as [[b c]|]; split; discriminate.
  - intros e. destruct (find " " field) as [[a r]|]; [|now intros [= <-]].
    destruct (find " " r) as [[b c]|]; discriminate.
  - intros t n tail -> Ht Hn Htail.
    change (lit " ") with [" "%char] in *.
    rewrite (find_after " "%char [] t (n ++ tail) Ht).
    destruct Htail as [->|(tail' & ->)].
    + rewrite app_nil_r. apply find_char_None in Hn. now rewrite Hn.
    + now rewrite (find_after " "%char [] n tail' Hn).
Qed.

Lemma C6_field_name_of_spec_witness :
  field_name_of "Expr a b" = Ok ("a" : str).
Proof.
  apply (proj2 (proj2 (C6_field_name_of_spec "Expr a b"))
           ("Expr" : str) ("a" : str) (" b" : str)).
  - reflexivity.
  - simpl. intros [E|[E|[E|[E|[]]]]]; discriminate E.
  - simpl. intros [E|[]]; discriminate E.
  - right. exists ("b" : str). reflexivity.
Defined.

(** * Well-formed rules are read back as written *)

Lemma ident_In (s : str) (c : ascii) :
  ident s = true -> In c s -> ident_char c = true.
Proof.
  intros H Hc. destruct s as [|x s]; [contradiction|].
  unfold ident in H. rewrite forallb_forall in H. now apply H.
Qed.

Lemma ident_free (s : str) (c : ascii) :
  ident s = true -> ident_char c = false -> ~ In c s.
Proof. intros H Hc Hin. rewrite (ident_In s c H Hin) in Hc. discriminate. Qed.

Lemma join_In_inv (c : ascii) (sep : str) (ps : list str) :
  In c (join sep ps) -> In c sep \/ exists p, In p ps /\ In c p.
Proof.
  induction ps as [|p ps IH]; [contradiction|].
  destruct ps as [|q ps].
  - intros H. right. exists p. split; [now left|assumption].
  - rewrite join_cons by discriminate. intros H.
    apply in_app_or in H as [H|H].
    + right. exists p. split; [now left|assumption].
    + apply in_app_or in H as [H|H]; [now left|].
      destruct (IH H) as [H'|(p' & Hp' & Hc)]; [now left|].
      right. exists p'. split; [now right|assumption].
Qed.

Lemma field_text_chars (f : Field) (c : ascii) :
  wf_field f = true -> In c (field_text f) ->
  ident_char c = true \/ c = " "%char.
Proof.
  unfold wf_field, field_text. intros H Hc.
  apply andb_prop in H as [Ht Hn].
  apply in_app_or in Hc as [Hc|Hc]; [left; exact (ident_In _ _ Ht Hc)|].
  apply in_app_or in Hc as [Hc|Hc]; [|left; exact (ident_In _ _ Hn Hc)].
  right. destruct Hc as [<-|[]]. reflexivity.
Qed.

Lemma fields_text_chars (fs : list Field) (c : ascii) :
  forallb wf_field fs = true -> In c (fields_text fs) ->
  ident_char c = true \/ c = " "%char \/ c = ","%char.
Proof.
  intros H Hc. apply join_In_inv in Hc as [Hc|(p & Hp & Hc)].
  - right. destruct Hc as [<-|[<-|[]]]; [now right|now left].
  - apply in_map_iff in Hp as (f & <- & Hf).
    rewrite forallb_forall in H.
    destruct (field_text_chars f c (H f Hf) Hc); tauto.
Qed.

Lemma fields_of_wf_rule (r : Rule) :
  wf_rule r = true ->
  ident (r_name r) = true /\ r_fields r <> [] /\
  forallb wf_field (r_fields r) = true.
Proof.
  unfold wf_rule. intros H. apply andb_prop in H as [Hn Hf].
  destruct (r_fields r); [discriminate|]. repeat split; auto. discriminate.
Qed.

Lemma rule_text_chars (r : Rule) (c : ascii) :
  wf_rule r = true -> In c (rule_text r) ->
  ident_char c = true \/ c = " "%char \/ c = ","%char \/ c = ":"%char.
Proof.
  intros H Hc. destruct (fields_of_wf_rule r H) as (Hn & _ & Hf).
  unfold rule_text in Hc.
  apply in_app_or in Hc as [Hc|Hc]; [left; exact (ident_In _ _ Hn Hc)|].
  apply in_app_or in Hc as [Hc|Hc].
  - right. destruct Hc as [<-|[<-|[<-|[]]]]; tauto.
  - destruct (fields_text_chars _ c Hf Hc) as [?|[?|?]]; tauto.
Qed.

Lemma field_text_no_comma (f : Field) :
  wf_field f = true -> ~ In ","%char (field_text f).
Proof. intros H. absent_char (field_text_chars f ","%char H). Qed.

Lemma fields_text_no_colon (fs : list Field) :
  forallb wf_field fs = true -> ~ In ":"%char (fields_text fs).
Proof. intros H. absent_char (fields_text_chars fs ":"%char H). Qed.

Lemma rule_text_no_semicolon (r : Rule) :
  wf_rule r = true -> ~ In ";"%char (rule_text r).
Proof. intros H. absent_char (rule_text_chars r ";"%char H). Qed.

Lemma split_field_text (f : Field) :
  wf_field f = true -> split (field_text f) " " = [f_type f; f_name f].
Proof.
  intros H. apply andb_prop in H as [Ht Hn].
  assert (St : ~ In " "%char (f_type f)) by now apply ident_free.
  assert (Sn : ~ In " "%char (f_name f)) by now apply ident_free.
  unfold field_text. change (lit " ") with [" "%char].
  rewrite (split_cut [" "%char]) with (a := f_type f) (r := f_name f).
  - rewrite split_none; [reflexivity|discriminate|now apply find_char_None].
  - discriminate.
  - exact (find_after " "%char [] _ _ St).
Qed.

Lemma split_fields_text (fs : list Field) :
  fs <> [] -> forallb wf_field fs = true ->
  split (fields_text fs) ", " = map field_text fs.
Proof.
  induction fs as [|f fs IH]; [contradiction|]. intros _ H.
  simpl in H. apply andb_prop in H as [Hf Hfs].
  pose proof (field_text_no_comma f Hf) as Nc.
  destruct fs as [|g fs].
  - unfold fields_text. simpl.
    rewrite split_none; [reflexivity|discriminate|].
    apply (find_absent _ _ ","%char); [now left|assumption].
  - unfold fields_text. cbn [map]. rewrite join_cons by discriminate.
    rewrite (split_cut ", " sep_field_nonempty) with
      (a := field_text f) (r := join ", " (map field_text (g :: fs))).
    + f_equal. apply IH; [discriminate|assumption].
    + exact (find_after ","%char [" "%char] _ _ Nc).
Qed.

Lemma split_rule_text (r : Rule) :
  wf_rule r = true ->
  split_rule (rule_text r) = Ok (r_name r, fields_text (r_fields r)).
Proof.
  intros H. destruct (fields_of_wf_rule r H) as (Hn & _ & Hf).
  assert (Sn : ~ In " "%char (r_name r)) by now apply ident_free.
  rewrite split_rule_cases. unfold rule_text.
  change (lit " : ") with (" "%char :: [":"%char; " "%char]).
  rewrite (find_after " "%char _ _ _ Sn).
  rewrite (find_absent _ _ ":"%char);
    [reflexivity|right; now left|now apply fields_text_no_colon].
Qed.

(** ** The loops *)

Lemma for_in_app {A S : Type} (xs ys : list A) (f : A -> S -> result S) (s : S) :
  for_in (xs ++ ys) f s = (s' <- for_in xs f s ;; for_in ys f s').
Proof.
  revert s; induction xs as [|x xs IH]; intros s; simpl; [reflexivity|].
  destruct (f x s); simpl; [apply IH|reflexivity].
Qed.

(** The declaration loop never raises. *)
Lemma for_in_declare (fields : list str) (body : list str) :
  for_in fields declare_step body = Ok (body ++ map field_line fields).
Proof.
  revert body; induction fields as [|x xs IH]; intros body; simpl.
  - now rewrite app_nil_r.
  - rewrite IH. now rewrite <- app_assoc.
Qed.

Lemma for_in_assign (fs : list Field) (body : list str) :
  forallb wf_field fs = true ->
  for_in (map field_text fs) assign_step body
  = Ok (body ++ map (fun f => assign_line (f_name f)) fs).
Proof.
  revert body; induction fs as [|f fs IH]; intros body H; simpl.
  - now rewrite app_nil_r.
  - simpl in H. apply andb_prop in H as [Hf Hfs].
    unfold assign_step at 1, field_name_of.
    rewrite (split_field_text f Hf). simpl.
    rewrite (IH _ Hfs). now rewrite <- app_assoc.
Qed.

(** The lines of a subtype block are the lines the loop body builds. *)
Lemma subtype_block_lines (base_name : str) (r : Rule) :
  subtype_block base_name r
  = [class_line base_name (r_name r);
     ctor_line (r_name r) (fields_text (r_fields r))]
    ++ map (fun f => assign_line (f_name f)) (r_fields r)
    ++ [ctor_end]
    ++ map (fun f => field_line (field_text f)) (r_fields r)
    ++ [class_end].
Proof. reflexivity. Qed.

(** One pass of the outer loop over a well-formed clause appends the
    subtype block of its rule. *)
Lemma rule_step_wf (base_name : str) (r : Rule) (body : list str) :
  wf_rule r = true ->
  rule_step base_name (rule_text r) body
  = Ok (body ++ subtype_block base_name r).
Proof.
  intros H. destruct (fields_of_wf_rule r H) as (_ & Hne & Hf).
  unfold rule_step. rewrite (split_rule_text r H). cbn [bind].
  rewrite (split_fields_text _ Hne Hf).
  rewrite (for_in_assign _ _ Hf). cbn [bind].
  rewrite for_in_declare. cbn [bind]. rewrite subtype_block_lines.
  rewrite map_map. rewrite <- !app_assoc. reflexivity.
Qed.

Lemma for_in_rules (base_name : str) (rs : list Rule) (body : list str) :
  forallb wf_rule rs = true ->
  for_in (map rule_text rs) (rule_step base_name) body
  = Ok (body ++ concat (map (subtype_block base_name) rs)).
Proof.
  revert body; induction rs as [|r rs IH]; intros body H; simpl.
  - now rewrite app_nil_r.
  - simpl in H. apply andb_prop in H as [Hr Hrs].
    rewrite (rule_step_wf _ _ _ Hr). cbn [bind].
    rewrite (IH _ Hrs). now rewrite <- app_assoc.
Qed.

(** ** From the grammar text to the clauses *)

Lemma split_clauses (rs : list Rule) :
  forallb wf_rule rs = true ->
  split (clauses rs) ";" = map rule_text rs ++ [[]].
Proof.
  induction rs as [|r rs IH]; intros H; [reflexivity|].
  simpl in H. apply andb_prop in H as [Hr Hrs].
  unfold clauses. cbn [map concat]. rewrite <- app_assoc.
  rewrite (split_cut ";" sep_clause_nonempty) with
    (a := rule_text r) (r := clauses rs).
  - cbn [map app]. f_equal. now apply IH.
  - exact (find_after ";"%char [] _ _ (rule_text_no_semicolon r Hr)).
Qed.

Lemma clauses_last (rs : list Rule) (r : Rule) :
  clauses (rs ++ [r]) = clauses rs ++ rule_text r ++ ";".
Proof.
  unfold clauses. rewrite map_app, concat_app. simpl.
  now rewrite app_nil_r.
Qed.

(** The clauses of well-formed rules start with a name and end with a
    semicolon: there is nothing for [strip] to remove. *)
Lemma strip_clauses (rs : list Rule) :
  forallb wf_rule rs = true -> strip (clauses rs) = clauses rs.
Proof.
  intros H. destruct rs as [|r rs]; [reflexivity|].
  assert (Hr : wf_rule r = true) by (simpl in H; now apply andb_prop in H).
  destruct (fields_of_wf_rule r Hr) as (Hn & _ & _).
  assert (exists c n, r_name r = c :: n /\ isspace c = false) as (c & n & En & Hc).
  { destruct (r_name r) as [|c n] eqn:E; [discriminate|].
    exists c, n. split; [reflexivity|].
    assert (I : ident_char c = true) by (apply (ident_In _ c Hn); now left).
    unfold ident_char in I. apply negb_true_iff in I.
    do 5 (apply orb_false_iff in I as [I _]). exact I. }
  assert (exists m, clauses (r :: rs) = c :: m ++ [";"%char]) as (m & ->).
  { destruct (exists_last (l := r :: rs)) as (rs' & r' & E); [discriminate|].
    rewrite E, clauses_last.
    assert (exists m', clauses rs' ++ rule_text r' = c :: m') as (m' & Em).
    { destruct rs' as [|r0 rs'].
      - injection E as E1 _. subst r'. unfold rule_text. rewrite En.
        simpl. eauto.
      - injection E as E1 _. subst r0. unfold clauses, rule_text.
        cbn [map concat]. rewrite En. simpl. eauto. }
    exists m'. rewrite app_assoc, Em. reflexivity. }
  now apply strip_tight.
Qed.

(** The clauses the script works on, for a text that is the clauses of
    well-formed rules once its line breaks are removed. *)
Lemma rule_lines_clauses (grammar : str) (rs : list Rule) :
  forallb wf_rule rs = true ->
  replace grammar [LF] [] = clauses rs ->
  rule_lines grammar = Ok (map rule_text rs).
Proof.
  intros H E. unfold rule_lines.
  rewrite E, (strip_clauses rs H), (split_clauses rs H).
  unfold del_last.
  destruct (map rule_text rs ++ [[]]) eqn:D.
  - now apply app_eq_nil in D as [_ [=]].
  - rewrite <- D. now rewrite removelast_last.
Qed.

(** ** Blanks before the name of a clause

    The chunks are not stripped: blanks that follow a semicolon stay in
    front of the name of the next clause. *)

Lemma blank_space (pad : str) : blank pad = true -> Forall space pad.
Proof.
  intros H. apply Forall_forall. intros c I. unfold blank in H.
  rewrite forallb_forall in H. exact (H c I).
Qed.

Lemma blank_free (pad : str) (c : ascii) :
  blank pad = true -> isspace c = false -> ~ In c pad.
Proof.
  intros H N I. unfold blank in H. rewrite forallb_forall in H.
  rewrite (H c I) in N. discriminate N.
Qed.

(** The leftmost occurrence of a separator whose second character is not
    in the text before it and differs from its first. *)
Lemma find_after2 (x y : ascii) (sep p r : str) :
  x <> y -> ~ In y p ->
  find (x :: y :: sep) (p ++ (x :: y :: sep) ++ r) = Some (p, r).
Proof.
  intros Hxy. induction p as [|c p IH]; intros N.
  - exact (find_here (x :: y :: sep) r).
  - assert (Hp : ~ In y p) by (intros I; apply N; now right).
    assert (S : startswith (c :: p ++ (x :: y :: sep) ++ r) (x :: y :: sep)
                = false).
    { cbn [startswith]. destruct (Ascii.eqb x c); [|reflexivity]. cbn [andb].
      destruct p as [|d p]; cbn [app startswith].
      - assert (E : Ascii.eqb y x = false)
          by (apply Ascii.eqb_neq; congruence).
        now rewrite E.
      - assert (E : Ascii.eqb y d = false).
        { apply Ascii.eqb_neq. intros ->. apply N. right. now left. }
        now rewrite E. }
    change ((c :: p) ++ (x :: y :: sep) ++ r)
      with (c :: (p ++ (x :: y :: sep) ++ r)).
    cbn [find]. rewrite S. now rewrite (IH Hp).
Qed.

Lemma wf_spaced_inv (pr : str * Rule) :
  wf_spaced pr = true -> blank (fst pr) = true /\ wf_rule (snd pr) = true.
Proof. intros H. now apply andb_prop in H. Qed.

Lemma split_rule_spaced (pr : str * Rule) :
  wf_spaced pr = true ->
  split_rule (spaced_rule_text pr)
  = Ok (spelled pr, fields_text (r_fields (snd pr))).
Proof.
  intros H. apply wf_spaced_inv in H as [Hp H].
  destruct (fields_of_wf_rule _ H) as (Hn & _ & Hf).
  assert (Nc : ~ In ":"%char (spelled pr)).
  { unfold spelled. intros I. apply in_app_or in I as [I|I].
    - revert I. now apply blank_free.
    - revert I. now apply ident_free. }
  assert (D : " "%char <> ":"%char) by discriminate.
  rewrite split_rule_cases. unfold spaced_rule_text, rule_text.
  rewrite app_assoc. fold (spelled pr).
  change (lit " : ") with (" "%char :: ":"%char :: [" "%char]).
  rewrite (find_after2 " "%char ":"%char _ _ _ D Nc).
  rewrite (find_absent _ _ ":"%char);
    [reflexivity|right; now left|now apply fields_text_no_colon].
Qed.

(** One pass of the outer loop over a clause with blanks before its name:
    the blanks go into the name. *)
Lemma rule_step_spaced (base_name : str) (pr : str * Rule) (body : list str) :
  wf_spaced pr = true ->
  rule_step base_name (spaced_rule_text pr) body
  = Ok (body ++ spaced_block base_name pr).
Proof.
  intros H. destruct (wf_spaced_inv pr H) as [_ Hr].
  destruct (fields_of_wf_rule _ Hr) as (_ & Hne & Hf).
  unfold rule_step. rewrite (split_rule_spaced pr H). cbn [bind].
  rewrite (split_fields_text _ Hne Hf).
  rewrite (for_in_assign _ _ Hf). cbn [bind].
  rewrite for_in_declare. cbn [bind].
  unfold spaced_block. rewrite subtype_block_lines.
  unfold renamed. cbn [r_name r_fields].
  rewrite map_map. rewrite <- !app_assoc. reflexivity.
Qed.

Lemma for_in_spaced (base_name : str) (prs : list (str * Rule))
      (body : list str) :
  forallb wf_spaced prs = true ->
  for_in (map spaced_rule_text prs) (rule_step base_name) body
  = Ok (body ++ concat (map (spaced_block base_name) prs)).
Proof.
  revert body; induction prs as [|pr prs IH]; intros body H; simpl.
  - now rewrite app_nil_r.
  - simpl in H. apply andb_prop in H as [Hr Hrs].
    rewrite (rule_step_spaced _ _ _ Hr). cbn [bind].
    rewrite (IH _ Hrs). now rewrite <- app_assoc.
Qed.

Lemma spaced_rule_text_no_semicolon (pr : str * Rule) :
  wf_spaced pr = true -> ~ In ";"%char (spaced_rule_text pr).
Proof.
  intros H. apply wf_spaced_inv in H as [Hp H].
  unfold spaced_rule_text. intros I. apply in_app_or in I as [I|I].
  - revert I. now apply blank_free.
  - revert I. now apply rule_text_no_semicolon.
Qed.

Lemma split_spaced_clauses (prs : list (str * Rule)) :
  forallb wf_spaced prs = true ->
  split (spaced_clauses prs) ";" = map spaced_rule_text prs ++ [[]].
Proof.
  induction prs as [|pr prs IH]; intros H; [reflexivity|].
  simpl in H. apply andb_prop in H as [Hr Hrs].
  unfold spaced_clauses. cbn [map concat]. rewrite <- app_assoc.
  rewrite (split_cut ";" sep_clause_nonempty) with
    (a := spaced_rule_text pr) (r := spaced_clauses prs).
  - cbn [map app]. f_equal. now apply IH.
  - exact (find_after ";"%char [] _ _ (spaced_rule_text_no_semicolon pr Hr)).
Qed.

(** The clauses the script works on, for a text that, without its line
    breaks and the white space around it, is the clauses of well-formed
    rules, with or without blanks before their names. *)
Lemma rule_lines_spaced (grammar : str) (prs : list (str * Rule)) :
  forallb wf_spaced prs = true ->
  normalized grammar = spaced_clauses prs ->
  rule_lines grammar = Ok (map spaced_rule_text prs).
Proof.
  intros H E. unfold rule_lines.
  change (strip (replace grammar [LF] [])) with (normalized grammar).
  rewrite E, (split_spaced_clauses prs H).
  unfold del_last.
  destruct (map spaced_rule_text prs ++ [[]]) eqn:D.
  - now apply app_eq_nil in D as [_ [=]].
  - rewrite <- D. now rewrite removelast_last.
Qed.

(** ** Words *)

Lemma words_from_end (w : str) :
  words_from w [] = match w with [] => [] | _ :: _ => [w] end.
Proof. reflexivity. Qed.

Lemma words_from_space (w s : str) (c : ascii) :
  isspace c = true -> words_from w (c :: s) = words_from w [] ++ words s.
Proof. intros H. cbn [words_from]. rewrite H. now destruct w. Qed.

(** White space between two texts separates their words. *)
Lemma words_from_app_space (w x y : str) (c : ascii) :
  isspace c = true ->
  words_from w (x ++ c :: y) = words_from w x ++ words y.
Proof.
  intros H. revert w; induction x as [|a x IH]; intros w.
  - now apply words_from_space.
  - cbn [app words_from]. destruct (isspace a).
    + destruct w; rewrite IH; reflexivity.
    + apply IH.
Qed.

Lemma words_app_space (x y : str) (c : ascii) :
  isspace c = true -> words (x ++ c :: y) = words x ++ words y.
Proof. apply words_from_app_space. Qed.

Lemma words_from_solid (w x : str) :
  forallb (fun c => negb (isspace c)) x = true ->
  words_from w x = match w ++ x with [] => [] | _ :: _ => [w ++ x] end.
Proof.
  revert w; induction x as [|a x IH]; intros w H.
  - now rewrite app_nil_r.
  - cbn [forallb] in H. apply andb_prop in H as [Ha Hx].
    apply negb_true_iff in Ha. cbn [words_from]. rewrite Ha.
    rewrite (IH _ Hx), <- app_assoc. reflexivity.
Qed.

(** A word is its own single word. *)
Lemma words_word (x : str) : word x = true -> words x = [x].
Proof.
  destruct x as [|a x]; [discriminate|]. intros H.
  unfold words. now rewrite (words_from_solid [] (a :: x) H).
Qed.

(** Two words with no white space between them make one word. *)
Lemma word_app (x y : str) : word x = true -> word y = true -> word (x ++ y) = true.
Proof.
  destruct x as [|a x]; [discriminate|]. destruct y as [|b y]; [discriminate|].
  unfold word. cbn [app]. intros Hx Hy.
  change (a :: x ++ b :: y) with ((a :: x) ++ b :: y).
  rewrite forallb_app. now rewrite Hx, Hy.
Qed.

Lemma words_spaces_left (pad s : str) :
  Forall space pad -> words (pad ++ s) = words s.
Proof.
  induction 1 as [|c pad Hc _ IH]; [reflexivity|].
  change ((c :: pad) ++ s) with ([] ++ c :: (pad ++ s)).
  now rewrite (words_app_space [] _ c Hc).
Qed.

Lemma ident_word (s : str) : ident s = true -> word s = true.
Proof.
  destruct s as [|a s]; [discriminate|]. unfold ident, word.
  rewrite !forallb_forall. intros H c Hc. specialize (H c Hc).
  unfold ident_char in H. apply negb_true_iff in H.
  do 5 (apply orb_false_iff in H as [H _]). now apply negb_true_iff.
Qed.

(** ** Reading the emitted lines *)

Lemma str_eq_refl (a : str) : str_eq a a = true.
Proof. induction a; simpl; [reflexivity|]. now rewrite Ascii.eqb_refl. Qed.

Lemma before_semicolon_app (n : str) : before_semicolon (n ++ ";") = Some n.
Proof.
  unfold before_semicolon. change (lit ";") with [";"%char].
  rewrite rev_unit. cbn. now rewrite rev_involutive.
Qed.

(** The type declaration of a rule reads as its name and the base name,
    also when white space comes before the name. *)
Lemma read_class_line (base_name name spelled : str) :
  word base_name = true -> words spelled = [name] ->
  read_class (class_line base_name spelled) = Some (name, base_name).
Proof.
  intros Hb Hn. unfold read_class.
  change (class_line base_name spelled)
    with (([TAB] ++ "static class") ++ " "%char ::
          (spelled ++ " "%char ::
           ("extends" ++ " "%char ::
            (base_name ++ " "%char :: ("{" ++ [LF]))))).
  rewrite !words_app_space by reflexivity.
  rewrite Hn, (words_word _ Hb).
  change (words ([TAB] ++ "static class")) with ["static" : str; "class" : str].
  change (words "extends") with ["extends" : str].
  change (words ("{" ++ [LF])) with ["{" : str].
  reflexivity.
Qed.

Lemma read_assign_line (n : str) :
  word n = true -> read_assign (assign_line n) = Some (n, n).
Proof.
  intros Hn. unfold read_assign.
  replace (assign_line n)
    with ([TAB; TAB; TAB] ++
          (("this." ++ n) ++ " "%char ::
           ("=" ++ " "%char :: ((n ++ ";") ++ LF :: []))))
    by (unfold assign_line; rewrite <- !app_assoc; reflexivity).
  rewrite words_spaces_left by (repeat constructor).
  rewrite !words_app_space by reflexivity.
  rewrite (words_word ("this." ++ n) (word_app "this." n eq_refl Hn)).
  rewrite (words_word (n ++ ";") (word_app n ";" Hn eq_refl)).
  change (words "=") with ["=" : str]. change (words []) with (@nil str).
  cbn [app]. rewrite str_eq_refl, startswith_app. cbn [andb].
  rewrite before_semicolon_app.
  change 5 with (length (lit "this.")). now rewrite skipn_sep_app.
Qed.

Lemma read_field_line (f : Field) :
  wf_field f = true ->
  read_field (field_line (field_text f)) = Some (f_type f, f_name f).
Proof.
  intros H. apply andb_prop in H as [Ht Hn].
  apply ident_word in Ht. apply ident_word in Hn.
  unfold read_field, field_text.
  replace (field_line (f_type f ++ " " ++ f_name f))
    with ([TAB; TAB] ++
          ("public" ++ " "%char ::
           (f_type f ++ " "%char :: ((f_name f ++ ";") ++ LF :: []))))
    by (unfold field_line; rewrite <- !app_assoc; reflexivity).
  rewrite words_spaces_left by (repeat constructor).
  rewrite !words_app_space by reflexivity.
  rewrite (words_word _ Ht).
  rewrite (words_word (f_name f ++ ";") (word_app _ ";" Hn eq_refl)).
  change (words "public") with ["public" : str].
  change (words []) with (@nil str).
  cbn [app]. rewrite str_eq_refl. now rewrite before_semicolon_app.
Qed.

Lemma read_typed_field (pad : str) (f : Field) :
  Forall space pad -> wf_field f = true ->
  read_typed (pad ++ field_text f) = Some (f_type f, f_name f).
Proof.
  intros Hp H. apply andb_prop in H as [Ht Hn].
  apply ident_word in Ht. apply ident_word in Hn.
  unfold read_typed, field_text. rewrite (words_spaces_left _ _ Hp).
  change (f_type f ++ " " ++ f_name f)
    with (f_type f ++ " "%char :: f_name f).
  rewrite words_app_space by reflexivity.
  now rewrite (words_word _ Ht), (words_word _ Hn).
Qed.

Lemma spaces_no_comma (pad : str) : Forall space pad -> ~ In ","%char pad.
Proof.
  intros H Hin. rewrite Forall_forall in H. specialize (H _ Hin).
  discriminate H.
Qed.

(** The field list of a rule, cut at its commas, reads as the fields. *)
Lemma read_all_fields (pad : str) (fs : list Field) :
  fs <> [] -> forallb wf_field fs = true -> Forall space pad ->
  read_all (split (pad ++ fields_text fs) ",")
  = Some (map (fun f => (f_type f, f_name f)) fs).
Proof.
  revert pad; induction fs as [|f fs IH]; [contradiction|].
  intros pad _ H Hp. simpl in H. apply andb_prop in H as [Hf Hfs].
  assert (Nc : ~ In ","%char (pad ++ field_text f)).
  { intros Hin. apply in_app_or in Hin as [Hin|Hin].
    - now apply (spaces_no_comma pad Hp).
    - now apply (field_text_no_comma f Hf). }
  change (lit ",") with [","%char].
  destruct fs as [|g fs].
  - unfold fields_text. cbn [map join].
    rewrite split_none; [|discriminate|now apply find_char_None].
    cbn [read_all]. now rewrite (read_typed_field pad f Hp Hf).
  - unfold fields_text. cbn [map]. rewrite join_cons by discriminate.
    change (pad ++ field_text f ++ ", " ++ join ", " (map field_text (g :: fs)))
      with (pad ++ field_text f ++ [","%char]
            ++ ([" "%char] ++ fields_text (g :: fs))).
    rewrite app_assoc.
    rewrite (split_cut [","%char]) with
      (a := pad ++ field_text f) (r := [" "%char] ++ fields_text (g :: fs));
      [|discriminate|exact (find_after ","%char [] _ _ Nc)].
    cbn [read_all]. rewrite (read_typed_field pad f Hp Hf).
    change [","%char] with (lit ",").
    rewrite (IH [" "%char]); [reflexivity|discriminate|exact Hfs|].
    repeat constructor.
Qed.

Lemma fields_text_no_paren (fs : list Field) :
  forallb wf_field fs = true -> ~ In ")"%char (fields_text fs).
Proof. intros H. absent_char (fields_text_chars fs ")"%char H). Qed.

(** The initializer line of a rule reads as its name and its fields, also
    when white space comes before the name. *)
Lemma read_ctor_line (name spelled : str) (fs : list Field) :
  words spelled = [name] -> ~ In "("%char spelled ->
  fs <> [] -> forallb wf_field fs = true ->
  read_ctor (ctor_line spelled (fields_text fs))
  = Some (name, map (fun f => (f_type f, f_name f)) fs).
Proof.
  intros Hn Np Hne Hf. unfold read_ctor.
  replace (ctor_line spelled (fields_text fs))
    with ((([TAB; TAB] ++ "public") ++ " "%char :: spelled)
          ++ ["("%char] ++ (fields_text fs ++ [")"%char] ++ (" {" ++ [LF])))
    by (unfold ctor_line; rewrite <- !app_assoc; reflexivity).
  change (lit "(") with ["("%char]. change (lit ")") with [")"%char].
  rewrite (find_after "("%char []).
  2:{ intros Hin. apply in_app_or in Hin as [Hin|[Hin|Hin]].
      - repeat (destruct Hin as [Hin|Hin]; [discriminate Hin|]). exact Hin.
      - discriminate Hin.
      - contradiction. }
  rewrite (find_after ")"%char [] _ _ (fields_text_no_paren fs Hf)).
  rewrite words_app_space by reflexivity. rewrite Hn.
  change (words ([TAB; TAB] ++ "public")) with ["public" : str].
  change (words (" {" ++ [LF])) with ["{" : str].
  cbn [app]. cbn [str_eq andb].
  change (str_eq "public" "public") with true.
  change (str_eq "{" "{") with true. cbn [andb].
  pose proof (read_all_fields [] fs Hne Hf (Forall_nil _)) as R.
  cbn [app] in R. now rewrite R.
Qed.

Lemma read_while_map {A B : Type} (read : str -> option B)
      (line : A -> str) (value : A -> B) (xs : list A)
      (stop : str) (rest : list str) :
  (forall x, In x xs -> read (line x) = Some (value x)) ->
  read stop = None ->
  read_while read (map line xs ++ stop :: rest)
  = (map value xs, stop :: rest).
Proof.
  intros H Hs. induction xs as [|x xs IH]; simpl.
  - now rewrite Hs.
  - rewrite (H x) by now left. rewrite IH; [reflexivity|].
    intros y Hy. apply H. now right.
Qed.

(** The block of a well-formed rule reads as the declaration of the rule,
    also when white space comes before the name in the emitted lines. *)
Lemma read_block_subtype_block (base_name spelled : str) (r : Rule)
      (rest : list str) :
  word base_name = true -> wf_rule r = true ->
  words spelled = [r_name r] -> ~ In "("%char spelled ->
  read_block (subtype_block base_name (renamed spelled r) ++ rest)
  = Some (declaration base_name r, rest).
Proof.
  intros Hb H Hn Np. destruct (fields_of_wf_rule r H) as (_ & Hne & Hf).
  rewrite subtype_block_lines. unfold renamed. cbn [r_name r_fields].
  cbn [app]. unfold read_block.
  rewrite (read_class_line base_name (r_name r) spelled Hb Hn).
  rewrite (read_ctor_line (r_name r) spelled _ Hn Np Hne Hf).
  rewrite <- !app_assoc. cbn [app].
  rewrite (read_while_map read_assign (fun f => assign_line (f_name f))
             (fun f => (f_name f, f_name f))).
  2:{ intros f Hin. apply read_assign_line. rewrite forallb_forall in Hf.
      specialize (Hf f Hin). apply andb_prop in Hf as [_ Hf].
      now apply ident_word. }
  2:{ reflexivity. }
  change (is_close ctor_end) with true. cbn iota.
  rewrite <- app_assoc. cbn [app].
  rewrite (read_while_map read_field (fun f => field_line (field_text f))
             (fun f => (f_type f, f_name f))).
  2:{ intros f Hin. apply read_field_line. rewrite forallb_forall in Hf.
      now apply Hf. }
  2:{ reflexivity. }
  change (is_close class_end) with true. reflexivity.
Qed.

Lemma renamed_same (r : Rule) : renamed (r_name r) r = r.
Proof. now destruct r. Qed.

Lemma wf_rule_name (r : Rule) :
  wf_rule r = true ->
  words (r_name r) = [r_name r] /\ ~ In "("%char (r_name r).
Proof.
  intros H. destruct (fields_of_wf_rule r H) as (Hn & _ & _). split.
  - now apply words_word, ident_word.
  - now apply ident_free.
Qed.

Lemma spelled_name (pr : str * Rule) :
  wf_spaced pr = true ->
  words (spelled pr) = [r_name (snd pr)] /\ ~ In "("%char (spelled pr).
Proof.
  intros H. apply wf_spaced_inv in H as [Hp H].
  destruct (wf_rule_name _ H) as [Hw Np]. unfold spelled. split.
  - rewrite words_spaces_left by now apply blank_space. exact Hw.
  - intros I. apply in_app_or in I as [I|I]; [|now apply Np].
    revert I. now apply blank_free.
Qed.

Lemma read_block_spaced (base_name : str) (pr : str * Rule)
      (rest : list str) :
  word base_name = true -> wf_spaced pr = true ->
  read_block (spaced_block base_name pr ++ rest)
  = Some (declaration base_name (snd pr), rest).
Proof.
  intros Hb H. destruct (spelled_name pr H) as [Hw Np].
  destruct (wf_spaced_inv pr H) as [_ Hr].
  exact (read_block_subtype_block base_name (spelled pr) (snd pr) rest
           Hb Hr Hw Np).
Qed.

(** The blocks of well-formed rules, one after the other, read as the
    declarations of the rules, when the reader is given at least one step
    per rule. *)
Lemma read_blocks_spaced (base_name : str) (prs : list (str * Rule))
      (n : nat) :
  word base_name = true -> forallb wf_spaced prs = true -> length prs <= n ->
  read_blocks n (concat (map (spaced_block base_name) prs))
  = Some (map (fun pr => declaration base_name (snd pr)) prs).
Proof.
  intros Hb. revert n; induction prs as [|pr prs IH]; intros n H L.
  - now destruct n.
  - simpl in H. apply andb_prop in H as [Hr Hrs].
    destruct n as [|n]; [simpl in L; lia|].
    cbn [map concat].
    pose proof (read_block_spaced base_name pr
                  (concat (map (spaced_block base_name) prs)) Hb Hr) as B.
    destruct (spaced_block base_name pr ++ _) as [|l ls] eqn:E.
    { apply app_eq_nil in E as [E _]. discriminate E. }
    cbn [read_blocks]. rewrite B.
    rewrite (IH n Hrs) by (simpl in L; lia). reflexivity.
Qed.

Lemma length_concat_blocks (base_name : str) (prs : list (str * Rule)) :
  length prs <= length (concat (map (spaced_block base_name) prs)).
Proof.
  induction prs as [|pr prs IH]; [reflexivity|].
  cbn [map concat]. rewrite length_app.
  unfold spaced_block at 1, subtype_block. simpl. lia.
Qed.

Lemma read_body_spaced (base_name : str) (prs : list (str * Rule)) :
  word base_name = true -> forallb wf_spaced prs = true ->
  read_body (concat (map (spaced_block base_name) prs))
  = Some (map (fun pr => declaration base_name (snd pr)) prs).
Proof.
  intros Hb H. apply read_blocks_spaced; auto. apply length_concat_blocks.
Qed.

(** * The order of rules and fields *)

(** C7: for a grammar text that, without its line breaks and the white
    space around it, is the semicolon-closed clauses of well-formed rules
    (blanks may precede a name), generation succeeds and the body is the
    blocks of the rules in the order of the text, line for line; read back,
    the body is one declaration per rule, in the order of the rules, each
    with the rule's fields as parameters of the initializer, as assignments
    and as field declarations, in the order of the fields. *)
Theorem C7_order_preserved (base_name grammar : str)
        (prs : list (str * Rule)) :
  word base_name = true ->
  forallb wf_spaced prs = true ->
  normalized grammar = spaced_clauses prs ->
  exists body,
    generate base_name grammar = Ok (header base_name, body, footer)
    /\ body = concat (map (spaced_block base_name) prs)
    /\ read_body body
       = Some (map (fun pr => declaration base_name (snd pr)) prs).
Proof.
  intros Hb H E. exists (concat (map (spaced_block base_name) prs)).
  split; [|split; [reflexivity|now apply read_body_spaced]].
  unfold generate. rewrite (rule_lines_spaced grammar prs H E). cbn [bind].
  unfold emit. rewrite (for_in_spaced base_name prs [] H). reflexivity.
Qed.

Lemma C7_order_preserved_witness :
  exists body,
    generate "Expr" scenario_one_line = Ok (header "Expr", body, footer)
    /\ body = concat (map (spaced_block "Expr")
                         [([], rule_Binary); (" " : str, rule_Unary)])
    /\ read_body body
       = Some [declaration "Expr" rule_Binary; declaration "Expr" rule_Unary].
Proof.
  exact (C7_order_preserved "Expr" scenario_one_line
           [([], rule_Binary); (" " : str, rule_Unary)]
           eq_refl eq_refl eq_refl).
Defined.

(** C8: one pass of the loop over the clause of a well-formed rule appends
    the block of the rule, line for line; read back, the block declares the
    fields of the rule, and the assignments of its initializer are, in the
    order of the fields, one [this.name = name] for each field and nothing
    else. *)
Theorem C8_one_assignment_per_field (base_name : str) (r : Rule)
        (body : list str) :
  word base_name = true -> wf_rule r = true ->
  exists block d,
    rule_step base_name (rule_text r) body = Ok (body ++ block)
    /\ block = subtype_block base_name r
    /\ read_block block = Some (d, [])
    /\ d_fields d = map (fun f => (f_type f, f_name f)) (r_fields r)
    /\ d_assigns d = map (fun f => (f_name f, f_name f)) (r_fields r)
    /\ map fst (d_assigns d) = map snd (d_fields d).
Proof.
  intros Hb H. exists (subtype_block base_name r), (declaration base_name r).
  split; [now apply rule_step_wf|]. split; [reflexivity|]. split.
  - destruct (wf_rule_name r H) as [Hw Np].
    pose proof (read_block_subtype_block base_name (r_name r) r [] Hb H Hw Np)
      as B.
    rewrite renamed_same, app_nil_r in B. exact B.
  - cbn [declaration d_fields d_assigns]. split; [reflexivity|].
    split; [reflexivity|]. rewrite !map_map. reflexivity.
Qed.

Lemma C8_one_assignment_per_field_witness :
  exists block d,
    rule_step "Expr" "Unary : Token operator, Expr right" [] = Ok block
    /\ read_block block = Some (d, [])
    /\ d_assigns d = [("operator" : str, "operator" : str);
                      ("right" : str, "right" : str)].
Proof.
  destruct (C8_one_assignment_per_field "Expr" rule_Unary [] eq_refl eq_refl)
    as (block & d & S & _ & B & _ & A & _).
  exists block, d. split; [exact S|]. split; [exact B|exact A].
Defined.

(** * How a run fails *)

(** The assignment loop either completes or raises [IndexError] on a field
    string without a space. *)
Lemma for_in_assign_outcome (fields body : list str) :
  (exists body', for_in fields assign_step body = Ok body')
  \/ (for_in fields assign_step body = Raise IndexError
      /\ exists field, In field fields /\ ~ In " "%char field).
Proof.
  revert body; induction fields as [|x xs IH]; intros body; simpl.
  - left. eauto.
  - unfold assign_step at 1 3. rewrite field_name_of_cases.
    change (lit " ") with [" "%char].
    destruct (find [" "%char] x) as [[a r]|] eqn:F.
    + assert (exists n, (match find [" "%char] r with
                         | Some (n, _) => Ok n
                         | None => Ok r
                         end) = Ok n) as (n & ->).
      { destruct (find [" "%char] r) as [[b c]|]; eauto. }
      cbn [bind].
      destruct (IH (body ++ [assign_line n])) as [?|(E & f & Hf & Nf)];
        [now left|].
      right. split; [exact E|]. exists f. split; [now right|assumption].
    + right. split; [reflexivity|]. exists x. split; [now left|].
      now apply find_char_None.
Qed.

(** One pass of the outer loop completes, or raises [ValueError] at the
    unpacking, or raises [IndexError] in the assignment loop. *)
Lemma rule_step_outcome (base_name line : str) (body : list str) :
  (exists body', rule_step base_name line body = Ok body')
  \/ (rule_step base_name line body = Raise ValueError
      /\ split_rule line = Raise ValueError)
  \/ (rule_step base_name line body = Raise IndexError
      /\ exists name fields field,
           split_rule line = Ok (name, fields)
           /\ In field (split fields ", ") /\ ~ In " "%char field).
Proof.
  unfold rule_step.
  destruct (split_rule line) as [[name fields]|e] eqn:S.
  - cbn [bind].
    destruct (for_in_assign_outcome (split fields ", ")
                ((body ++ [class_line base_name name])
                   ++ [ctor_line name fields]))
      as [(b & ->)|(-> & field & Hf & Nf)].
    + left. cbn [bind]. rewrite for_in_declare. cbn [bind]. eauto.
    + right. right. split; [reflexivity|]. now exists name, fields, field.
  - right. left. rewrite split_rule_cases in S.
    destruct (find " : " line) as [[a r]|];
      [destruct (find " : " r) as [[b c]|]|]; try discriminate;
      injection S as <-; now split.
Qed.

Lemma rule_step_no_separator (base_name line : str) (body : list str) :
  contains line " : " = false ->
  rule_step base_name line body = Raise ValueError.
Proof.
  unfold contains, rule_step. rewrite split_rule_cases.
  now destruct (find " : " line).
Qed.


(** * Opening and writing the output file *)

(** What [writelines] leaves: only the file written to and the room change;
    the file gets a prefix of the text, all of it exactly when the device
    takes the text; otherwise the exception is one of the two of a write. *)
Lemma writelines_spec (file : nat) (lines : list str) (fs : files) :
  locate (snd (writelines file lines fs)) = locate fs
  /\ encodable (snd (writelines file lines fs)) = encodable fs
  /\ (forall f, f <> file ->
        data (snd (writelines file lines fs)) f = data fs f)
  /\ ((exists t, data fs file = Some t) ->
      data (snd (writelines file lines fs)) file
      = Some (text_of file (snd (writelines file lines fs))))
  /\ (exists p q,
        concat lines = p ++ q
        /\ text_of file (snd (writelines file lines fs))
           = text_of file fs ++ p
        /\ (fst (writelines file lines fs) = Ok tt -> q = [])
        /\ (forall e, fst (writelines file lines fs) = Raise e ->
                      q <> [] /\ (e = OSError \/ e = UnicodeEncodeError)))
  /\ (fst (writelines file lines fs) = Ok tt <-> writable fs (concat lines))
  /\ (fst (writelines file lines fs) = Ok tt ->
      room (snd (writelines file lines fs))
      = room fs - length (concat lines)).
Proof.
  revert fs; induction lines as [|line rest IH]; intros fs.
  - cbn [writelines fst snd concat]. repeat split; auto.
    + intros (t & E). unfold text_of. now rewrite E.
    + exists [], []. repeat split; auto; try discriminate.
      now rewrite app_nil_r.
    + cbn. lia.
    + cbn. lia.
  - cbn [writelines concat]. unfold io_bind, write, writable.
    rewrite forallb_app, length_app.
    destruct (forallb (encodable fs) line) eqn:Enc.
    + destruct (Nat.leb (length line) (room fs)) eqn:Fit.
      * apply Nat.leb_le in Fit.
        set (fs1 := store file (text_of file fs ++ line)
                      (room fs - length line) fs).
        assert (T1 : text_of file fs1 = text_of file fs ++ line).
        { unfold text_of, fs1, store. cbn. now rewrite Nat.eqb_refl. }
        destruct (IH fs1) as (L & E & F & D & (p & q & C & T & Hok & Herr)
                              & W & R).
        destruct (writelines file rest fs1) as [r fs'] eqn:Wr.
        cbn [fst snd] in *.
        split; [exact L|]. split; [exact E|].
        split.
        { intros f N. rewrite (F f N). unfold fs1, store. cbn.
          apply Nat.eqb_neq in N. now rewrite N. }
        split.
        { intros _. apply D. unfold fs1, store. cbn.
          rewrite Nat.eqb_refl. eauto. }
        split.
        { exists (line ++ p), q.
          split; [rewrite C; now rewrite app_assoc|].
          split; [rewrite T, T1; now rewrite <- app_assoc|].
          split; assumption. }
        assert (R1 : room fs1 = room fs - length line) by reflexivity.
        assert (E1 : encodable fs1 = encodable fs) by reflexivity.
        split.
        { rewrite W. unfold writable. rewrite R1, E1. cbn [andb]. split.
          - intros [H1 H2]. split; [exact H1|lia].
          - intros [H1 H2]. split; [exact H1|lia]. }
        intros H. rewrite (R H), R1. lia.
      * apply Nat.leb_gt in Fit. cbn [fst snd].
        split; [reflexivity|]. split; [reflexivity|].
        split.
        { intros f N. unfold store. cbn. apply Nat.eqb_neq in N.
          now rewrite N. }
        split.
        { intros _. unfold store, text_of. cbn. now rewrite Nat.eqb_refl. }
        split.
        { exists (firstn (room fs) line), (skipn (room fs) line ++ concat rest).
          split; [now rewrite app_assoc, firstn_skipn|].
          split; [unfold store, text_of; cbn; now rewrite Nat.eqb_refl|].
          split; [discriminate|]. intros e [= <-]. split; [|now left].
          intros H. apply app_eq_nil in H as [H _].
          apply (f_equal (@length ascii)) in H. rewrite length_skipn in H.
          simpl in H. lia. }
        split; [|discriminate].
        split; [discriminate|]. intros [_ H]. lia.
    + cbn [fst snd andb].
      split; [reflexivity|]. split; [reflexivity|].
      split; [reflexivity|].
      split; [intros (t & E); unfold text_of; now rewrite E|].
      split.
      { exists [], (line ++ concat rest). rewrite app_nil_r.
        repeat split; auto; try discriminate.
        - intros H0. apply app_eq_nil in H0 as [-> _]. discriminate Enc.
        - injection H as <-. now right. }
      split; [|discriminate].
      split; [discriminate|]. intros [H _]. discriminate H.
Qed.

Lemma writelines_app (file : nat) (xs ys : list str) (fs : files) :
  writelines file (xs ++ ys) fs
  = (_ <~ writelines file xs ;; writelines file ys) fs.
Proof.
  revert fs; induction xs as [|x xs IH]; intros fs.
  - reflexivity.
  - cbn [app writelines]. unfold io_bind.
    destruct (write file x fs) as [[[]|e] fs1]; [|reflexivity].
    rewrite IH. reflexivity.
Qed.

Lemma for_in_rules_raises (base_name : str) (lines body : list str) (e : exn) :
  for_in lines (rule_step base_name) body = Raise e ->
  e = ValueError \/ e = IndexError.
Proof.
  revert body; induction lines as [|l lines IH]; intros body; simpl;
    [discriminate|].
  destruct (rule_step_outcome base_name l body)
    as [(b & ->)|[(-> & _)|(-> & _)]]; cbn [bind].
  - apply IH.
  - intros [= <-]. now left.
  - intros [= <-]. now right.
Qed.

(** [generate] raises only the two exceptions of the parsing statements. *)
Lemma generate_raises (base_name grammar : str) (e : exn) :
  generate base_name grammar = Raise e -> e = ValueError \/ e = IndexError.
Proof.
  unfold generate, emit.
  destruct (rule_lines grammar) as [lines|e0] eqn:L.
  2:{ unfold rule_lines, del_last in L.
      destruct (split _ ";"); [|discriminate].
      injection L as <-. cbn [bind]. intros [= <-]. now right. }
  cbn [bind].
  destruct (for_in lines (rule_step base_name) []) as [b|e'] eqn:F;
    cbn [bind]; [discriminate|].
  intros [= <-]. exact (for_in_rules_raises _ _ _ _ F).
Qed.

(** What [main] does after a successful [generate]: one [writelines] of the
    three lists, on the file just opened. *)
Lemma main_writes (G : globals) (fs : files) (h b f : list str) :
  generate (g_base_name G) (g_grammar G) = Ok (h, b, f) ->
  main G fs
  = (file <~ open_w (g_path_name G) ;; writelines file (h ++ b ++ f)) fs.
Proof.
  intros E. unfold main. rewrite E. unfold io_bind.
  destruct (open_w (g_path_name G) fs) as [[file|e] fs0]; [|reflexivity].
  rewrite writelines_app. unfold io_bind.
  destruct (writelines file h fs0) as [[[]|e] fs1]; [|reflexivity].
  rewrite writelines_app. unfold io_bind.
  destruct (writelines file b fs1) as [[[]|e] fs2]; reflexivity.
Qed.

Lemma main_parse_error (G : globals) (fs : files) (e : exn) :
  generate (g_base_name G) (g_grammar G) = Raise e ->
  main G fs = (Raise e, fs).
Proof. intros E. unfold main. now rewrite E. Qed.

(** The outcomes of a run.  A parsing exception leaves the file system as
    it was, and so does a failing open.  Once the file is open only that
    file and the room change; the file holds a prefix of the text, all of
    it exactly when the run succeeds, which it does exactly when the device
    takes the text. *)
Lemma main_outcome (G : globals) (fs : files) :
  match generate (g_base_name G) (g_grammar G) with
  | Raise e => main G fs = (Raise e, fs)
  | Ok parts =>
      match locate fs (g_path_name G) with
      | None => main G fs = (Raise OSError, fs)
      | Some file =>
          locate (snd (main G fs)) = locate fs
          /\ encodable (snd (main G fs)) = encodable fs
          /\ (forall f, f <> file -> data (snd (main G fs)) f = data fs f)
          /\ (fst (main G fs) = Ok tt <-> writable fs (written parts))
          /\ exists p q,
               written parts = p ++ q
               /\ data (snd (main G fs)) file = Some p
               /\ (fst (main G fs) = Ok tt -> q = [])
               /\ (forall e, fst (main G fs) = Raise e ->
                     q <> [] /\ (e = OSError \/ e = UnicodeEncodeError))
      end
  end.
Proof.
  destruct (generate (g_base_name G) (g_grammar G)) as [[[h b] f]|e] eqn:E;
    [|now apply main_parse_error].
  rewrite (main_writes G fs h b f E). unfold io_bind, open_w.
  destruct (locate fs (g_path_name G)) as [file|]; [|reflexivity].
  set (fs0 := store file [] (room fs) fs).
  assert (W0 : written (h, b, f) = concat (h ++ b ++ f)).
  { unfold written. now rewrite !concat_app. }
  assert (T0 : text_of file fs0 = []).
  { unfold text_of, fs0, store. cbn. now rewrite Nat.eqb_refl. }
  assert (D0 : exists t, data fs0 file = Some t).
  { exists []. unfold fs0, store. cbn. now rewrite Nat.eqb_refl. }
  destruct (writelines_spec file (h ++ b ++ f) fs0)
    as (L & En & F & D & (p & q & C & T & Hok & Herr) & W & _).
  split; [exact L|]. split; [exact En|]. split.
  { intros f' N. rewrite (F f' N). unfold fs0, store. cbn.
    apply Nat.eqb_neq in N. now rewrite N. }
  split; [rewrite W0; exact W|].
  exists p, q. split; [now rewrite W0|].
  split; [|split; assumption].
  rewrite (D D0), T, T0. reflexivity.
Qed.

(** * A clause without the separator *)




(** * A grammar text of blanks and semicolons *)

Lemma blank_not_colon (s : str) : Forall space s -> ~ In ":"%char s.
Proof.
  intros H Hin. rewrite Forall_forall in H. specialize (H _ Hin).
  discriminate H.
Qed.

(** C4, as stated, fails: on the text made of one semicolon the script
    works on one empty clause, and unpacking it raises [ValueError]. *)
Lemma C4_lone_semicolon_raises :
  forallb blank_or_semicolon ";" = true
  /\ generate "Expr" ";" = Raise ValueError.
Proof. split; reflexivity. Qed.

(** C4 (amended): for a grammar text of white space only, generation
    succeeds with an empty body; the run succeeds exactly when the output
    file can be opened and the device takes the text, the file then holds
    the header followed immediately by the footer, and the only exceptions
    are those of opening and writing.  For a text of white space and
    semicolons with at least one semicolon, the run raises [ValueError]
    (MalformedRuleError) before the file is opened, and nothing is
    written. *)
Theorem C4_blank_grammar (G : globals) (fs : files) :
  forallb blank_or_semicolon (g_grammar G) = true ->
  (has_semicolon (g_grammar G) = false ->
   generate (g_base_name G) (g_grammar G)
   = Ok (header (g_base_name G), [], footer)
   /\ (fst (main G fs) = Ok tt <->
       (exists file, locate fs (g_path_name G) = Some file)
       /\ writable fs (concat (header (g_base_name G)) ++ concat footer))
   /\ (forall file,
         locate fs (g_path_name G) = Some file ->
         fst (main G fs) = Ok tt ->
         data (snd (main G fs)) file
         = Some (concat (header (g_base_name G)) ++ concat footer))
   /\ (forall e, fst (main G fs) = Raise e ->
                 e = OSError \/ e = UnicodeEncodeError))
  /\ (has_semicolon (g_grammar G) = true ->
      main G fs = (Raise ValueError, fs)).
Proof.
  intros B. rewrite forallb_forall in B.
  set (t := strip (replace (g_grammar G) [LF] [])).
  assert (Bt : Forall (fun c => blank_or_semicolon c = true) t).
  { apply strip_Forall, replace_delete_Forall; [discriminate|].
    now apply Forall_forall. }
  split; intros S.
  - assert (Sp : Forall space (g_grammar G)).
    { apply Forall_forall. intros c Hc. specialize (B c Hc).
      unfold blank_or_semicolon in B. apply orb_prop in B as [B|B]; [exact B|].
      exfalso. unfold has_semicolon in S.
      assert (X : existsb (Ascii.eqb ";") (g_grammar G) = true).
      { apply existsb_exists. exists c. split; [exact Hc|].
        now rewrite Ascii.eqb_sym. }
      congruence. }
    assert (E : generate (g_base_name G) (g_grammar G)
                = Ok (header (g_base_name G), [], footer)).
    { unfold generate, rule_lines.
      rewrite (strip_spaces _ (replace_delete_Forall space _ [LF]
                                 ltac:(discriminate) Sp)).
      reflexivity. }
    split; [exact E|].
    pose proof (main_outcome G fs) as M. rewrite E in M.
    change (written (header (g_base_name G), [], footer))
      with (concat (header (g_base_name G)) ++ concat footer) in M.
    destruct (locate fs (g_path_name G)) as [file|].
    + destruct M as (_ & _ & _ & W & p & q & C & D & Hok & Herr).
      split; [|split].
      * rewrite W. split; [intros H; split; eauto|now intros [_ H]].
      * intros file' [= <-] H. rewrite D, C, (Hok H).
        now rewrite app_nil_r.
      * intros e H. now apply Herr.
    + rewrite M. cbn [fst snd]. split; [|split].
      * split; [discriminate|]. now intros [(file & [=]) _].
      * discriminate.
      * intros e [= <-]. now left.
  - unfold has_semicolon in S. apply existsb_exists in S as (c & Hc & Ec).
    apply Ascii.eqb_eq in Ec. subst c.
    assert (Ht : In ";"%char t).
    { apply strip_keeps; [|reflexivity].
      apply replace_keeps; [discriminate|exact Hc|].
      intros [X|[]]; discriminate X. }
    destruct (find [";"%char] t) as [[a r]|] eqn:F;
      [|now apply find_char_None in F].
    pose proof (find_char_before _ _ _ _ F) as Na.
    pose proof (find_Some _ _ _ _ F) as Et.
    assert (Sa : Forall space a).
    { rewrite Et in Bt. apply Forall_app in Bt as [Ba _].
      apply Forall_forall. intros c Hc'.
      rewrite Forall_forall in Ba. specialize (Ba c Hc').
      unfold blank_or_semicolon in Ba.
      apply orb_prop in Ba as [Ba|Ba]; [exact Ba|].
      apply Ascii.eqb_eq in Ba. subst c. contradiction. }
    assert (Ca : contains a " : " = false).
    { unfold contains.
      rewrite (find_absent _ a ":"%char);
        [reflexivity|right; now left|now apply blank_not_colon]. }
    assert (L : exists post, rule_lines (g_grammar G) = Ok (a :: post)).
    { unfold rule_lines. fold t.
      change (lit ";") with [";"%char].
      rewrite (split_cut [";"%char]) with (a := a) (r := r);
        [|discriminate|exact F].
      pose proof (split_not_nil [";"%char] ltac:(discriminate) r) as N.
      destruct (split r [";"%char]) as [|x xs]; [contradiction|].
      exists (removelast (x :: xs)). reflexivity. }
    destruct L as (post & L).
    unfold main, generate, emit. rewrite L. cbn [bind for_in].
    now rewrite (rule_step_no_separator _ _ _ Ca).
Qed.

Lemma C4_blank_grammar_witness :
  generate "Expr" ([LF] ++ "  " ++ [TAB; LF]) = Ok (header "Expr", [], footer)
  /\ data (snd (main {| g_grammar := [LF] ++ "  " ++ [TAB; LF];
                        g_path_name := path_name;
                        g_base_name := "Expr"; g_filename := None |}
                     (disk path_name 4096))) 0
     = Some (concat (header "Expr") ++ concat footer)
  /\ fst (main {| g_grammar := " ; ;" ++ [LF]; g_path_name := path_name;
                  g_base_name := "Expr"; g_filename := None |}
               (disk path_name 4096))
     = Raise ValueError.
Proof.
  split; [|split].
  - apply (proj1 (C4_blank_grammar
             {| g_grammar := [LF] ++ "  " ++ [TAB; LF];
                g_path_name := path_name;
                g_base_name := "Expr"; g_filename := None |}
             (disk path_name 4096) eq_refl) eq_refl).
  - apply (proj1 (C4_blank_grammar
             {| g_grammar := [LF] ++ "  " ++ [TAB; LF];
                g_path_name := path_name;
                g_base_name := "Expr"; g_filename := None |}
             (disk path_name 4096) eq_refl) eq_refl); reflexivity.
  - rewrite (proj2 (C4_blank_grammar
             {| g_grammar := " ; ;" ++ [LF]; g_path_name := path_name;
                g_base_name := "Expr"; g_filename := None |}
             (disk path_name 4096) eq_refl) eq_refl).
    reflexivity.
Defined.

(** * The chunk after the last semicolon *)

(** The last chunk is empty exactly when the text is empty or ends with the
    separator character. *)
Lemma split_last_empty (c : ascii) (t : str) :
  last (split t [c]) [] = [] <-> t = [] \/ exists t', t = t' ++ [c].
Proof.
  assert (Hc : [c] <> []) by discriminate.
  apply (split_ind [c] Hc
           (fun t l => last l [] = [] <-> t = [] \/ exists t', t = t' ++ [c]));
    clear t.
  - intros t F. cbn [last]. split; [now left|].
    intros [->|(t' & ->)]; [reflexivity|].
    exfalso. apply find_char_None in F. apply F.
    apply in_or_app. right. now left.
  - intros t a r F IH. apply find_Some in F. subst t.
    pose proof (split_not_nil [c] Hc r) as N.
    destruct (split r [c]) as [|x xs] eqn:D; [contradiction|].
    change (last (a :: x :: xs) []) with (last (x :: xs) []).
    rewrite IH. split.
    + intros [->|(r' & ->)]; right.
      * exists a. now rewrite app_nil_r.
      * exists (a ++ [c] ++ r'). now rewrite <- !app_assoc.
    + intros [E|(t' & E)]; [now destruct a|].
      destruct r as [|z r0]; [now left|]. right.
      destruct (exists_last (l := z :: r0)) as (r' & y & Er); [discriminate|].
      rewrite Er in *. exists r'.
      rewrite !app_assoc in E. apply app_inj_tail in E as [_ ->].
      reflexivity.
Qed.

Lemma has_semicolon_In (s : str) : has_semicolon s = true <-> In ";"%char s.
Proof.
  unfold has_semicolon. rewrite existsb_exists. split.
  - intros (c & Hc & E). apply Ascii.eqb_eq in E. now subst c.
  - intros H. exists ";"%char. split; [exact H|reflexivity].
Qed.

(** C10: the chunks of the stripped text are the clauses the script works
    on followed by one more chunk, which [del lines[-1]] discards whatever
    it holds.  That chunk is the text after the last semicolon; the clauses
    kept do not depend on it, so it gives no block and no error; and it is
    empty exactly when the stripped text is empty or ends with a semicolon,
    so a final clause that is not closed by a semicolon is dropped. *)
Theorem C10_last_chunk_dropped (base_name grammar : str) :
  let t := strip (replace grammar [LF] []) in
  exists lines dropped,
    split t ";" = lines ++ [dropped]
    /\ t = join ";" (lines ++ [dropped])
    /\ has_semicolon dropped = false
    /\ rule_lines grammar = Ok lines
    /\ generate base_name grammar = emit base_name lines
    /\ (dropped = [] <-> t = [] \/ exists t', t = t' ++ ";").
Proof.
  intros t.
  pose proof (split_not_nil ";" sep_clause_nonempty t) as N.
  exists (removelast (split t ";")), (last (split t ";") []).
  assert (D : split t ";"
              = removelast (split t ";") ++ [last (split t ";") []])
    by now apply app_removelast_last.
  split; [exact D|]. split; [|split; [|split; [|split]]].
  - rewrite <- D. symmetry. apply (join_split ";" sep_clause_nonempty).
  - destruct (has_semicolon _) eqn:S; [|reflexivity]. exfalso.
    apply has_semicolon_In in S.
    pose proof (split_pieces_free ";" sep_clause_nonempty t) as F.
    rewrite Forall_forall in F.
    assert (I : In (last (split t ";") []) (split t ";")).
    { rewrite D at 2. apply in_or_app. right. now left. }
    specialize (F _ I). change (lit ";") with [";"%char] in F.
    now apply find_char_None in F.
  - unfold rule_lines. fold t. unfold del_last.
    destruct (split t ";"); [contradiction|reflexivity].
  - unfold generate, rule_lines. fold t. unfold del_last.
    destruct (split t ";"); [contradiction|reflexivity].
  - exact (split_last_empty ";"%char t).
Qed.

Lemma C10_last_chunk_dropped_witness :
  rule_lines "A : B c; Bad Expr x" = Ok ["A : B c" : str]
  /\ generate "Expr" "A : B c; Bad Expr x"
     = Ok (header "Expr",
           subtype_block "Expr"
             {| r_name := "A";
                r_fields := [ {| f_type := "B"; f_name := "c" |} ] |},
           footer).
Proof.
  destruct (C10_last_chunk_dropped "Expr" "A : B c; Bad Expr x")
    as (lines & dropped & S & _ & _ & L & E & _).
  change (["A : B c" : str] ++ [" Bad Expr x" : str] = lines ++ [dropped]) in S.
  apply app_inj_tail in S as [<- _].
  split; [exact L|]. rewrite E. reflexivity.
Defined.

(** * The scenario with two clauses *)

(** C1: on the scenario's text generation succeeds and the body is the
    eighteen lines below.  Read back, they are exactly two declarations, in
    this order: [Binary], whose initializer takes [left], [operator],
    [right] and which declares these three fields in that order, and
    [Unary], whose initializer takes [operator], [right].  The blank that
    follows the semicolon in the text stays in front of the name [Unary] in
    the two lines that spell it, where it is white space between two
    words. *)
Theorem C1_two_blocks_in_order :
  exists body ds,
    generate "Expr" scenario_one_line = Ok (header "Expr", body, footer)
    /\ read_body body = Some ds
    /\ map d_name ds = ["Binary" : str; "Unary" : str]
    /\ map d_ctor ds = ["Binary" : str; "Unary" : str]
    /\ map (fun d => map snd (d_params d)) ds
       = [["left" : str; "operator" : str; "right" : str];
          ["operator" : str; "right" : str]]
    /\ map (fun d => map snd (d_fields d)) ds
       = [["left" : str; "operator" : str; "right" : str];
          ["operator" : str; "right" : str]]
    /\ ds = [declaration "Expr" rule_Binary; declaration "Expr" rule_Unary]
    /\ body
       = [ [TAB] ++ "static class Binary extends Expr {" ++ [LF];
           [TAB; TAB]
             ++ "public Binary(Expr left, Token operator, Expr right) {"
             ++ [LF];
           [TAB; TAB; TAB] ++ "this.left = left;" ++ [LF];
           [TAB; TAB; TAB] ++ "this.operator = operator;" ++ [LF];
           [TAB; TAB; TAB] ++ "this.right = right;" ++ [LF];
           [TAB; TAB] ++ "}" ++ [LF];
           [TAB; TAB] ++ "public Expr left;" ++ [LF];
           [TAB; TAB] ++ "public Token operator;" ++ [LF];
           [TAB; TAB] ++ "public Expr right;" ++ [LF];
           [TAB] ++ "}" ++ [LF];
           [TAB] ++ "static class  Unary extends Expr {" ++ [LF];
           [TAB; TAB] ++ "public  Unary(Token operator, Expr right) {"
             ++ [LF];
           [TAB; TAB; TAB] ++ "this.operator = operator;" ++ [LF];
           [TAB; TAB; TAB] ++ "this.right = right;" ++ [LF];
           [TAB; TAB] ++ "}" ++ [LF];
           [TAB; TAB] ++ "public Token operator;" ++ [LF];
           [TAB; TAB] ++ "public Expr right;" ++ [LF];
           [TAB] ++ "}" ++ [LF] ].
Proof.
  eexists. eexists. split; [reflexivity|]. repeat split; reflexivity.
Qed.

(** * Purity *)

(** C2: the text a run produces depends on the base name and on the
    sequence of clauses only.  Two runs that agree on these, from any two
    file systems (whatever the target file held before, whatever the other
    files and the room left) and with any other module-level names (another
    output path, [filename] bound or not, another layout of the grammar
    text), generate the same lists of lines; when both get through, their
    target files hold the same text, character for character; and when one
    raises while it parses, the other raises the same exception and both
    leave their file systems as they were. *)
Theorem C2_output_function_of_rules (G1 G2 : globals) (fs1 fs2 : files) :
  g_base_name G1 = g_base_name G2 ->
  rule_lines (g_grammar G1) = rule_lines (g_grammar G2) ->
  generate (g_base_name G1) (g_grammar G1)
  = generate (g_base_name G2) (g_grammar G2)
  /\ (fst (main G1 fs1) = Ok tt -> fst (main G2 fs2) = Ok tt ->
      exists file1 file2 text,
        locate fs1 (g_path_name G1) = Some file1
        /\ locate fs2 (g_path_name G2) = Some file2
        /\ data (snd (main G1 fs1)) file1 = Some text
        /\ data (snd (main G2 fs2)) file2 = Some text)
  /\ (forall e, e = ValueError \/ e = IndexError ->
        fst (main G1 fs1) = Raise e ->
        main G1 fs1 = (Raise e, fs1) /\ main G2 fs2 = (Raise e, fs2)).
Proof.
  intros B L.
  assert (E : generate (g_base_name G1) (g_grammar G1)
              = generate (g_base_name G2) (g_grammar G2))
    by (unfold generate; now rewrite B, L).
  split; [exact E|].
  pose proof (main_outcome G1 fs1) as O1.
  pose proof (main_outcome G2 fs2) as O2. rewrite <- E in O2. clear E.
  destruct (generate (g_base_name G1) (g_grammar G1)) as [parts|e0].
  - destruct (locate fs1 (g_path_name G1)) as [file1|].
    + destruct O1 as (_ & _ & _ & _ & p1 & q1 & T1 & D1 & Q1 & R1).
      split.
      * intros S1 S2.
        destruct (locate fs2 (g_path_name G2)) as [file2|].
        -- destruct O2 as (_ & _ & _ & _ & p2 & q2 & T2 & D2 & Q2 & _).
           rewrite (Q1 S1), app_nil_r in T1. rewrite (Q2 S2), app_nil_r in T2.
           exists file1, file2, (written parts). subst p1 p2. now repeat split.
        -- rewrite O2 in S2. discriminate S2.
      * intros e He R. destruct (R1 e R) as [_ [->| ->]];
          destruct He as [He|He]; discriminate He.
    + split.
      * intros S1 _. rewrite O1 in S1. discriminate S1.
      * intros e He R. rewrite O1 in R. injection R as <-.
        destruct He as [He|He]; discriminate He.
  - split.
    + intros S1 _. rewrite O1 in S1. discriminate S1.
    + intros e _ R. rewrite O1 in R. injection R as <-.
      now rewrite O1, O2.
Qed.

Lemma C2_output_function_of_rules_witness :
  exists file1 file2 text,
    locate (disk path_name 4096) (g_path_name script_globals) = Some file1
    /\ locate (used_disk 5000) (g_path_name other_globals) = Some file2
    /\ data (snd (main script_globals (disk path_name 4096))) file1
       = Some text
    /\ data (snd (main other_globals (used_disk 5000))) file2 = Some text.
Proof.
  apply (proj1 (proj2 (C2_output_function_of_rules
                         script_globals other_globals
                         (disk path_name 4096) (used_disk 5000)
                         eq_refl eq_refl)));
    vm_compute; reflexivity.
Defined.

(** * The command-line argument *)

Lemma main_with_filename (G : globals) (filename : str) (fs : files) :
  main (with_filename G filename) fs = main G fs.
Proof. reflexivity. Qed.

(** C9: whatever the argument list, the script does what [main] does with
    the grammar, the path and the base name bound in the module: two runs
    that differ in the arguments only end the same way and leave the same
    file system. *)
Theorem C9_argument_ignored (argv1 argv2 : list str) (fs : files) :
  script argv1 fs = script argv2 fs
  /\ script argv1 fs = main script_globals fs.
Proof.
  assert (E : forall argv, script argv fs = main script_globals fs).
  { intros argv. unfold script. rewrite base_name_ex.
    destruct argv as [|a [|b l]]; cbn [length Nat.ltb Nat.leb getitem nth_error bind];
      try reflexivity. }
  split; [now rewrite !E|apply E].
Qed.

(** * Further properties of the script *)

(** ** Splitting on one character *)

Section SplitChar.

Variable c : ascii.

Lemma sep_char_nonempty : [c] <> [].
Proof. discriminate. Qed.

Lemma filter_absent (s : str) : ~ In c s -> filter (other_than c) s = s.
Proof.
  induction s as [|x s IH]; intros H; [reflexivity|]. simpl.
  assert (E : other_than c x = true).
  { unfold other_than. apply negb_true_iff, Ascii.eqb_neq.
    intros ->. apply H. now left. }
  rewrite E, IH; [reflexivity|]. intros Hin. apply H. now right.
Qed.

Lemma filter_cut (a r : str) :
  ~ In c a -> filter (other_than c) (a ++ [c] ++ r) = a ++ filter (other_than c) r.
Proof.
  intros H. rewrite filter_app, (filter_absent a H). simpl.
  unfold other_than at 1. now rewrite Ascii.eqb_refl.
Qed.

(** Deleting a character with [replace] leaves the other characters, in
    their order. *)
Lemma replace_char_filter (s : str) : replace s [c] [] = filter (other_than c) s.
Proof.
  unfold replace. rewrite join_nil_sep.
  apply (split_ind [c] sep_char_nonempty
           (fun s l => concat l = filter (other_than c) s)); clear s.
  - intros s F. apply find_char_None in F. simpl.
    now rewrite app_nil_r, filter_absent.
  - intros s a r F IH. pose proof (find_char_before _ _ _ _ F) as Na.
    apply find_Some in F. subst s. cbn [concat].
    now rewrite IH, filter_cut.
Qed.

(** One chunk more than there are occurrences of the character. *)
Lemma split_char_length (s : str) :
  length (split s [c]) = S (count_occ ascii_dec s c).
Proof.
  apply (split_ind [c] sep_char_nonempty
           (fun s l => length l = S (count_occ ascii_dec s c))); clear s.
  - intros s F. apply find_char_None in F. simpl.
    now rewrite (proj1 (count_occ_not_In ascii_dec s c) F).
  - intros s a r F IH. pose proof (find_char_before _ _ _ _ F) as Na.
    apply find_Some in F. subst s. simpl length. rewrite IH.
    rewrite !count_occ_app. simpl.
    rewrite (proj1 (count_occ_not_In ascii_dec a c) Na).
    destruct (ascii_dec c c); [reflexivity|contradiction].
Qed.

(** The chunk after the last occurrence of the character. *)
Lemma split_char_final (pre final : str) :
  ~ In c final ->
  split (pre ++ [c] ++ final) [c] = split pre [c] ++ [final].
Proof.
  intros Hf.
  apply (split_ind [c] sep_char_nonempty
           (fun pre l => split (pre ++ [c] ++ final) [c] = l ++ [final]));
    clear pre.
  - intros pre F. apply find_char_None in F.
    rewrite (split_cut [c] sep_char_nonempty) with (a := pre) (r := final).
    + rewrite split_none; [reflexivity|discriminate|now apply find_char_None].
    + exact (find_after c [] pre final F).
  - intros pre a r F IH. pose proof (find_char_before _ _ _ _ F) as Na.
    apply find_Some in F. subst pre.
    rewrite (split_cut [c] sep_char_nonempty) with
      (a := a) (r := r ++ [c] ++ final).
    + now rewrite IH.
    + rewrite <- !app_assoc. exact (find_after c [] a _ Na).
Qed.

End SplitChar.

(** ** The base name *)

Lemma join_snoc (sep y : str) (xs : list str) :
  xs <> [] -> join sep (xs ++ [y]) = join sep xs ++ sep ++ y.
Proof.
  induction xs as [|x xs IH]; [contradiction|]. intros _.
  destruct xs as [|x' xs]; [reflexivity|].
  change ((x :: x' :: xs) ++ [y]) with (x :: ((x' :: xs) ++ [y])).
  rewrite join_cons by (simpl; discriminate).
  rewrite IH by discriminate.
  rewrite (join_cons sep x (x' :: xs)) by discriminate.
  now rewrite <- !app_assoc.
Qed.

Lemma get_last_snoc (xs : list str) (y : str) : get_last (xs ++ [y]) = Ok y.
Proof.
  unfold get_last. destruct (xs ++ [y]) eqn:E.
  - now apply app_eq_nil in E as [_ [=]].
  - rewrite <- E. now rewrite last_last.
Qed.

(** X1: the base name is never an exception; it is what is left of the last
    component of the path, the text after its last slash, once [replace] has
    deleted the occurrences of [.java] it finds in it. *)
Theorem base_name_of_last_component (path : str) :
  exists last_part,
    base_name_of path = Ok (replace last_part ".java" [])
    /\ ~ In "/"%char last_part
    /\ (path = last_part \/ exists dir, path = dir ++ "/" ++ last_part).
Proof.
  assert (Hs : lit "/" <> []) by discriminate.
  pose proof (split_not_nil "/" Hs path) as N.
  destruct (exists_last N) as (init & lp & E).
  exists lp. unfold base_name_of. rewrite E, get_last_snoc. cbn [bind].
  split; [reflexivity|]. split.
  - pose proof (split_pieces_free "/" Hs path) as F.
    rewrite E, Forall_forall in F. apply find_char_None. apply F.
    apply in_or_app. right. now left.
  - pose proof (join_split "/" Hs path) as J. rewrite E in J.
    destruct init as [|x init]; [now left|]. right.
    exists (join "/" (x :: init)). rewrite <- J. apply join_snoc. discriminate.
Qed.

(** X2: for a path that ends in a name followed by [.java], the name having
    neither a slash nor a dot, the base name is that name, with or without
    directories before it. *)
Theorem base_name_of_java_path (dir name : str) :
  ~ In "/"%char name -> ~ In "."%char name ->
  base_name_of (dir ++ "/" ++ name ++ ".java") = Ok name
  /\ base_name_of (name ++ ".java") = Ok name.
Proof.
  intros Hs Hd.
  assert (Hf : ~ In "/"%char (name ++ ".java")).
  { intros H. apply in_app_or in H as [H|H]; [contradiction|].
    repeat (destruct H as [H|H]; [discriminate H|]). exact H. }
  assert (R : replace (name ++ ".java") ".java" [] = name).
  { unfold replace.
    assert (Hj : lit ".java" <> []) by discriminate.
    rewrite (split_cut ".java" Hj) with (a := name) (r := []).
    - rewrite (split_none ".java" Hj []) by reflexivity.
      simpl. now rewrite app_nil_r.
    - rewrite <- (app_nil_r (lit ".java")) at 2.
      exact (find_after "."%char (lit "java") name [] Hd). }
  unfold base_name_of. split.
  - change (lit "/") with ["/"%char].
    rewrite (split_char_final "/"%char dir _ Hf), get_last_snoc.
    cbn [bind]. now rewrite R.
  - rewrite (split_none "/") by
      (try discriminate; now apply find_char_None).
    cbn [get_last last bind]. now rewrite R.
Qed.

Lemma base_name_of_java_path_witness :
  base_name_of "../lox/Stmt.java" = Ok ("Stmt" : str)
  /\ base_name_of "Stmt.java" = Ok ("Stmt" : str).
Proof.
  apply (base_name_of_java_path "../lox" "Stmt").
  - simpl. intros [E|[E|[E|[E|[]]]]]; discriminate E.
  - simpl. intros [E|[E|[E|[E|[]]]]]; discriminate E.
Defined.

(** ** The text that is split into clauses *)

Lemma lstrip_head_nonspace (s r : str) (c : ascii) :
  lstrip s = c :: r -> isspace c = false.
Proof.
  induction s as [|x s IH]; simpl; [discriminate|].
  destruct (isspace x) eqn:E; [exact IH|]. now intros [= <- _].
Qed.

Lemma lstrip_spaces_app (ws s : str) :
  Forall space ws -> lstrip (ws ++ s) = lstrip s.
Proof.
  induction 1 as [|x ws Hx _ IH]; [reflexivity|].
  simpl. unfold space in Hx. now rewrite Hx.
Qed.

Lemma rstrip_spaces_app (s ws : str) :
  Forall space ws -> rstrip (s ++ ws) = rstrip s.
Proof.
  intros H. unfold rstrip. rewrite rev_app_distr.
  now rewrite lstrip_spaces_app by now apply Forall_rev.
Qed.

Lemma strip_spaces_right (t ws : str) :
  Forall space ws -> strip (t ++ ws) = strip t.
Proof.
  intros H. unfold strip. induction t as [|c t IH].
  - simpl. now rewrite (lstrip_spaces ws H).
  - simpl. destruct (isspace c); [exact IH|].
    change (c :: t ++ ws) with ((c :: t) ++ ws). now apply rstrip_spaces_app.
Qed.

Lemma strip_surrounded (w1 t w2 : str) :
  Forall space w1 -> Forall space w2 -> strip (w1 ++ t ++ w2) = strip t.
Proof.
  intros H1 H2. rewrite <- (strip_spaces_right t w2 H2).
  unfold strip. now rewrite lstrip_spaces_app.
Qed.

Lemma strip_head_nonspace (s r : str) (c : ascii) :
  strip s = c :: r -> isspace c = false.
Proof.
  unfold strip. intros E.
  destruct (rstrip_decomp (lstrip s)) as (ws & D & _).
  rewrite E in D. simpl in D. now apply lstrip_head_nonspace in D.
Qed.

Lemma strip_last_nonspace (s init : str) (d : ascii) :
  strip s = init ++ [d] -> isspace d = false.
Proof.
  unfold strip, rstrip. intros E.
  apply (f_equal (@rev ascii)) in E.
  rewrite rev_involutive, rev_app_distr in E. simpl in E.
  now apply lstrip_head_nonspace in E.
Qed.

Lemma strip_In (s : str) (c : ascii) : In c (strip s) -> In c s.
Proof.
  intros H. destruct (strip_decomp s) as (l & r & E & _ & _). rewrite E.
  apply in_or_app. right. apply in_or_app. now left.
Qed.

Lemma generate_normalized (base_name g1 g2 : str) :
  normalized g1 = normalized g2 ->
  generate base_name g1 = generate base_name g2.
Proof.
  intros E. unfold generate, rule_lines. fold (normalized g1) (normalized g2).
  now rewrite E.
Qed.

(** X3: the text that is split into clauses has no line break, neither
    starts nor ends with white space, and is left as it is when it is
    normalised again. *)
Theorem normalized_tight (grammar : str) :
  ~ In LF (normalized grammar)
  /\ (forall c rest, normalized grammar = c :: rest -> isspace c = false)
  /\ (forall init d, normalized grammar = init ++ [d] -> isspace d = false)
  /\ normalized (normalized grammar) = normalized grammar.
Proof.
  assert (N : ~ In LF (normalized grammar)).
  { intros H. apply strip_In in H. rewrite replace_char_filter in H.
    apply filter_In in H as [_ H]. unfold other_than in H.
    now rewrite Ascii.eqb_refl in H. }
  split; [exact N|]. split; [|split].
  - intros c rest. apply strip_head_nonspace.
  - intros init d. apply strip_last_nonspace.
  - unfold normalized at 1.
    rewrite (replace_absent _ [LF] [] LF); [|now left|exact N].
    destruct (normalized grammar) as [|c rest] eqn:E; [reflexivity|].
    pose proof (strip_head_nonspace _ _ _ E) as Hc.
    destruct (exists_last (l := c :: rest)) as (init & d & E');
      [discriminate|].
    rewrite E' in E. pose proof (strip_last_nonspace _ _ _ E) as Hd.
    unfold strip. rewrite (lstrip_head c rest Hc), E'.
    now apply rstrip_last.
Qed.

(** X4: a line break is ignored wherever it stands in the grammar text, also
    inside a name or a separator: the text with it and the text without it
    give the same clauses and the same outcome. *)
Theorem line_break_ignored (base_name a b : str) :
  rule_lines (a ++ [LF] ++ b) = rule_lines (a ++ b)
  /\ generate base_name (a ++ [LF] ++ b) = generate base_name (a ++ b).
Proof.
  assert (E : normalized (a ++ [LF] ++ b) = normalized (a ++ b)).
  { unfold normalized. rewrite !replace_char_filter, !filter_app.
    reflexivity. }
  split; [|now apply generate_normalized].
  unfold rule_lines. fold (normalized (a ++ [LF] ++ b)) (normalized (a ++ b)).
  now rewrite E.
Qed.

Lemma filter_spaces (f : ascii -> bool) (ws : str) :
  Forall space ws -> Forall space (filter f ws).
Proof.
  intros H. apply Forall_forall. intros x Hx. apply filter_In in Hx as [Hx _].
  rewrite Forall_forall in H. now apply H.
Qed.

(** X5: white space before and after the grammar text is ignored. *)
Theorem surrounding_space_ignored (base_name w1 grammar w2 : str) :
  forallb isspace w1 = true -> forallb isspace w2 = true ->
  generate base_name (w1 ++ grammar ++ w2) = generate base_name grammar.
Proof.
  intros H1 H2. apply generate_normalized. unfold normalized.
  rewrite !replace_char_filter, !filter_app.
  apply strip_surrounded; apply filter_spaces, Forall_forall;
    intros x Hx; unfold space.
  - rewrite forallb_forall in H1. now apply H1.
  - rewrite forallb_forall in H2. now apply H2.
Qed.

Lemma surrounding_space_ignored_witness :
  generate "Expr" ([TAB; LF] ++ "A : B c;" ++ "  " ++ [LF])
  = generate "Expr" "A : B c;".
Proof.
  apply (surrounding_space_ignored "Expr" [TAB; LF] "A : B c;" ("  " ++ [LF]));
    reflexivity.
Defined.

Lemma count_spaces (ws : str) (c : ascii) :
  Forall space ws -> isspace c = false -> count_occ ascii_dec ws c = 0.
Proof.
  intros H Hc. apply count_occ_not_In. intros Hin.
  rewrite Forall_forall in H. specialize (H c Hin). unfold space in H.
  congruence.
Qed.

Lemma count_filter_other (c d : ascii) (s : str) :
  c <> d ->
  count_occ ascii_dec (filter (other_than d) s) c
  = count_occ ascii_dec s c.
Proof.
  intros N. induction s as [|x s IH]; [reflexivity|].
  unfold other_than in *. simpl.
  destruct (Ascii.eqb x d) eqn:E; simpl.
  - apply Ascii.eqb_eq in E. subst x.
    destruct (ascii_dec d c); [now subst|exact IH].
  - destruct (ascii_dec x c); now rewrite IH.
Qed.

(** X6: computing the clauses never raises, and there are as many clauses
    as there are semicolons in the grammar text. *)
Theorem clause_count (grammar : str) :
  exists lines,
    rule_lines grammar = Ok lines
    /\ length lines = count_occ ascii_dec grammar ";"%char.
Proof.
  unfold rule_lines. fold (normalized grammar).
  pose proof (split_char_length ";"%char (normalized grammar)) as L.
  change [";"%char] with (lit ";") in L.
  destruct (split (normalized grammar) ";") as [|x xs] eqn:D;
    [discriminate L|].
  exists (removelast (x :: xs)). split; [reflexivity|].
  assert (Lr : S (length (removelast (x :: xs))) = length (x :: xs)).
  { rewrite (app_removelast_last [] (l := x :: xs)) at 2 by discriminate.
    rewrite length_app. simpl. lia. }
  assert (C : count_occ ascii_dec (normalized grammar) ";"%char
              = count_occ ascii_dec grammar ";"%char).
  { unfold normalized.
    destruct (strip_decomp (replace grammar [LF] [])) as (l & r & E & Hl & Hr).
    rewrite <- (count_filter_other ";"%char LF grammar) by discriminate.
    rewrite <- replace_char_filter. rewrite E at 2.
    rewrite !count_occ_app.
    rewrite (count_spaces l), (count_spaces r); auto. }
  lia.
Qed.

(** ** The loops only append *)

Section Appending.

Context {A : Type}.
Variable step : A -> list str -> result (list str).
Hypothesis step_appends :
  forall x body, step x body = (ext <- step x [] ;; Ok (body ++ ext)).

Lemma for_in_appends (xs : list A) (body : list str) :
  for_in xs step body = (ext <- for_in xs step [] ;; Ok (body ++ ext)).
Proof.
  revert body; induction xs as [|x xs IH]; intros body; simpl.
  - now rewrite app_nil_r.
  - rewrite (step_appends x body).
    destruct (step x []) as [e|err]; [|reflexivity]. cbn [bind app].
    rewrite (IH (body ++ e)), (IH e).
    destruct (for_in xs step []) as [e'|err]; [|reflexivity].
    cbn [bind]. now rewrite app_assoc.
Qed.

Lemma for_in_concat (xs ys : list A) :
  for_in (xs ++ ys) step []
  = (b1 <- for_in xs step [] ;; b2 <- for_in ys step [] ;; Ok (b1 ++ b2)).
Proof.
  rewrite for_in_app.
  destruct (for_in xs step []) as [b1|err]; [|reflexivity]. cbn [bind].
  apply for_in_appends.
Qed.

End Appending.

Lemma assign_step_appends (field : str) (body : list str) :
  assign_step field body = (ext <- assign_step field [] ;; Ok (body ++ ext)).
Proof.
  unfold assign_step. now destruct (field_name_of field).
Qed.

Lemma rule_step_appends (base_name line : str) (body : list str) :
  rule_step base_name line body
  = (block <- rule_step base_name line [] ;; Ok (body ++ block)).
Proof.
  unfold rule_step.
  destruct (split_rule line) as [[name fields]|e]; [|reflexivity]. cbn [bind].
  rewrite (for_in_appends assign_step assign_step_appends _
             ((body ++ [class_line base_name name]) ++ [ctor_line name fields])).
  rewrite (for_in_appends assign_step assign_step_appends _
             (([] ++ [class_line base_name name]) ++ [ctor_line name fields])).
  destruct (for_in (split fields ", ") assign_step []) as [ext|e];
    [|reflexivity].
  cbn [bind]. rewrite !for_in_declare. cbn [bind].
  now rewrite <- !app_assoc.
Qed.

(** X7: the lines a clause gives do not depend on what was emitted before
    it, and nothing emitted before is changed: the body of a sequence of
    clauses is the body of its first part followed by the body of the rest,
    and one exception in either part is the exception of the whole. *)
Theorem blocks_are_independent (base_name : str) (lines1 lines2 : list str)
        (body : list str) :
  for_in lines1 (rule_step base_name) body
  = (ext <- for_in lines1 (rule_step base_name) [] ;; Ok (body ++ ext))
  /\ for_in (lines1 ++ lines2) (rule_step base_name) []
     = (b1 <- for_in lines1 (rule_step base_name) [] ;;
        b2 <- for_in lines2 (rule_step base_name) [] ;;
        Ok (b1 ++ b2)).
Proof.
  split.
  - apply for_in_appends, rule_step_appends.
  - apply for_in_concat, rule_step_appends.
Qed.

(** ** Clauses that parse *)

Lemma field_name_of_Ok_space (field n : str) :
  field_name_of field = Ok n -> In " "%char field.
Proof.
  rewrite field_name_of_cases. change (lit " ") with [" "%char].
  destruct (find [" "%char] field) as [[a r]|] eqn:F; [|discriminate].
  intros _. apply find_Some in F. rewrite F.
  apply in_or_app. right. now left.
Qed.

Lemma for_in_assign_Ok (fields body b : list str) :
  for_in fields assign_step body = Ok b ->
  exists names,
    Forall2 (fun field n => field_name_of field = Ok n) fields names
    /\ b = body ++ map assign_line names.
Proof.
  revert body; induction fields as [|x xs IH]; intros body; simpl.
  - intros [= <-]. exists []. split; [constructor|now rewrite app_nil_r].
  - unfold assign_step at 1.
    destruct (field_name_of x) as [n|e] eqn:E; [|discriminate]. cbn [bind].
    intros H. destruct (IH _ H) as (names & F & ->).
    exists (n :: names). split; [now constructor|].
    simpl. now rewrite <- app_assoc.
Qed.

Lemma for_in_assign_spaces (fields body : list str) :
  Forall (fun field => In " "%char field) fields ->
  exists b, for_in fields assign_step body = Ok b.
Proof.
  intros H.
  destruct (for_in_assign_outcome fields body) as [?|(_ & f & Hf & Nf)];
    [assumption|].
  rewrite Forall_forall in H. exfalso. exact (Nf (H f Hf)).
Qed.

(** The shape of the lines one clause gives when the pass succeeds. *)
Lemma rule_step_Ok (base_name line : str) (body body' : list str) :
  rule_step base_name line body = Ok body' ->
  exists name fields names,
    split_rule line = Ok (name, fields)
    /\ Forall2 (fun field n => field_name_of field = Ok n)
               (split fields ", ") names
    /\ body' = body
               ++ [class_line base_name name; ctor_line name fields]
               ++ map assign_line names
               ++ [ctor_end]
               ++ map field_line (split fields ", ")
               ++ [class_end].
Proof.
  unfold rule_step.
  destruct (split_rule line) as [[name fields]|e]; [|discriminate].
  cbn [bind].
  destruct (for_in (split fields ", ") assign_step _) as [b|e] eqn:E;
    [|discriminate].
  cbn [bind]. rewrite for_in_declare. cbn [bind]. intros [= <-].
  destruct (for_in_assign_Ok _ _ _ E) as (names & F & ->).
  exists name, fields, names. split; [reflexivity|]. split; [exact F|].
  now rewrite <- !app_assoc.
Qed.

Lemma Forall2_fst_Forall {A B : Type} (R : A -> B -> Prop) (P : A -> Prop)
      (xs : list A) (ys : list B) :
  (forall x y, R x y -> P x) -> Forall2 R xs ys -> Forall P xs.
Proof. intros H F. induction F; constructor; eauto. Qed.

Lemma contains_space (field : str) :
  contains field " " = true <-> In " "%char field.
Proof.
  unfold contains. change (lit " ") with [" "%char].
  pose proof (find_char_None " "%char field) as H.
  destruct (find [" "%char] field) as [p|].
  - split; [intros _|reflexivity].
    destruct (In_dec ascii_dec " "%char field) as [I|N]; [exact I|].
    apply H in N. discriminate N.
  - split; [discriminate|]. intros I. exfalso. now apply (proj1 H).
Qed.

Lemma parses_spec (line : str) :
  parses line = true <->
  exists name fields,
    split_rule line = Ok (name, fields)
    /\ Forall (fun field => In " "%char field) (split fields ", ").
Proof.
  unfold parses. destruct (split_rule line) as [[name fields]|e].
  - rewrite forallb_forall. split.
    + intros H. exists name, fields. split; [reflexivity|].
      apply Forall_forall. intros f Hf. now apply contains_space, H.
    + intros (n & fl & [= <- <-] & F) f Hf. rewrite Forall_forall in F.
      now apply contains_space, F.
  - split; [discriminate|]. now intros (n & fl & [=] & _).
Qed.

Lemma rule_step_parses (base_name line : str) (body : list str) :
  (exists body', rule_step base_name line body = Ok body')
  <-> parses line = true.
Proof.
  rewrite parses_spec. split.
  - intros (body' & E).
    destruct (rule_step_Ok _ _ _ _ E) as (name & fields & names & S & F & _).
    exists name, fields. split; [exact S|].
    apply (Forall2_fst_Forall _ _ _ _ field_name_of_Ok_space F).
  - intros (name & fields & S & F). unfold rule_step. rewrite S. cbn [bind].
    destruct (for_in_assign_spaces _
                ((body ++ [class_line base_name name])
                   ++ [ctor_line name fields]) F) as (b & ->).
    cbn [bind]. rewrite for_in_declare. cbn [bind]. eauto.
Qed.

Lemma for_in_rules_parse (base_name : str) (lines body : list str) :
  (exists body', for_in lines (rule_step base_name) body = Ok body')
  <-> forallb parses lines = true.
Proof.
  revert body; induction lines as [|l lines IH]; intros body; simpl.
  - split; eauto.
  - rewrite andb_true_iff, <- (rule_step_parses base_name l body). split.
    + intros (body' & E).
      destruct (rule_step base_name l body) as [b|e] eqn:S; [|discriminate].
      split; [eauto|]. apply (IH b). eauto.
    + intros [(b & ->) H]. cbn [bind]. now apply (IH b).
Qed.

Lemma generate_Ok (base_name grammar : str)
      (parts : list str * list str * list str) :
  generate base_name grammar = Ok parts ->
  exists lines body,
    rule_lines grammar = Ok lines
    /\ for_in lines (rule_step base_name) [] = Ok body
    /\ parts = (header base_name, body, footer).
Proof.
  unfold generate, emit.
  destruct (rule_lines grammar) as [lines|]; [|discriminate]. cbn [bind].
  destruct (for_in lines (rule_step base_name) []) as [body|] eqn:F;
    [|discriminate].
  cbn [bind]. intros [= <-]. now exists lines, body.
Qed.

(** X8: a run succeeds exactly when every clause parses (each one unpacks
    into two parts at the separator, and every field string of its field
    list has a space), the output path can be opened, and the output takes
    the generated text: it has its characters and the room for it. *)
Theorem run_succeeds_iff (G : globals) (fs : files) (lines : list str) :
  rule_lines (g_grammar G) = Ok lines ->
  (fst (main G fs) = Ok tt <->
   forallb parses lines = true
   /\ (exists file, locate fs (g_path_name G) = Some file)
   /\ (forall parts, generate (g_base_name G) (g_grammar G) = Ok parts ->
                     writable fs (written parts))).
Proof.
  intros L. pose proof (main_outcome G fs) as O.
  rewrite <- (for_in_rules_parse (g_base_name G) lines []).
  destruct (generate (g_base_name G) (g_grammar G)) as [parts|e] eqn:E.
  - destruct (generate_Ok _ _ _ E) as (lines' & body & L' & F & _).
    rewrite L in L'. injection L' as <-.
    destruct (locate fs (g_path_name G)) as [file|].
    + destruct O as (_ & _ & _ & W & _). rewrite W. split.
      * intros Hw. split; [eauto|]. split; [eauto|]. now intros ? [= <-].
      * intros (_ & _ & Hw). now apply Hw.
    + rewrite O. cbn [fst]. split; [discriminate|].
      now intros (_ & (file & [=]) & _).
  - rewrite O. cbn [fst]. split; [discriminate|].
    intros ((body & F) & _). unfold generate, emit in E.
    rewrite L in E. cbn [bind] in E. rewrite F in E. discriminate E.
Qed.

Lemma run_succeeds_iff_witness :
  fst (main script_globals (disk path_name 4096)) = Ok tt.
Proof.
  apply (proj2 (run_succeeds_iff script_globals (disk path_name 4096)
                  (map rule_text script_rules) eq_refl)).
  split; [reflexivity|]. split; [exists 0; reflexivity|].
  intros parts E. vm_compute in E. injection E as <-.
  split; [reflexivity|]. apply Nat.leb_le. reflexivity.
Defined.

(** X10: the exception of a run is the one of the first clause that does
    not parse: [ValueError] when that clause does not unpack into two parts,
    [IndexError] when it does and one of its field strings has no space.
    The clauses after it are not looked at, and nothing is written. *)
Theorem first_failing_clause_decides (G : globals) (fs : files)
        (pre post : list str) (bad : str) :
  rule_lines (g_grammar G) = Ok (pre ++ bad :: post) ->
  forallb parses pre = true ->
  parses bad = false ->
  main G fs = (Raise (clause_error bad), fs).
Proof.
  intros L Hpre Hbad. unfold main, generate, emit. rewrite L. cbn [bind].
  rewrite for_in_app.
  apply (for_in_rules_parse (g_base_name G) pre []) in Hpre as (b & ->).
  cbn [bind for_in].
  destruct (rule_step_outcome (g_base_name G) bad b)
    as [Hok|[(-> & S)|(-> & name & fields & field & S & _)]].
  - apply rule_step_parses in Hok. congruence.
  - unfold clause_error. now rewrite S.
  - unfold clause_error. now rewrite S.
Qed.

Lemma first_failing_clause_decides_witness :
  main {| g_grammar := "A : B c; D : e; F G;"; g_path_name := path_name;
          g_base_name := "Expr"; g_filename := None |} (disk path_name 4096)
  = (Raise IndexError, disk path_name 4096).
Proof.
  apply (first_failing_clause_decides
           {| g_grammar := "A : B c; D : e; F G;"; g_path_name := path_name;
              g_base_name := "Expr"; g_filename := None |} (disk path_name 4096)
           ["A : B c" : str] [" F G" : str] " D : e");
    reflexivity.
Defined.

(** X11: a clause whose field list is empty cannot be generated: the empty
    list still splits into one, empty, field string, which has no space, so
    the pass raises [IndexError]. *)
Theorem clause_without_fields_raises (base_name line name : str)
        (body : list str) :
  split_rule line = Ok (name, []) ->
  rule_step base_name line body = Raise IndexError.
Proof.
  intros S. unfold rule_step. rewrite S. reflexivity.
Qed.

Lemma clause_without_fields_raises_witness :
  rule_step "Expr" "Nil : " [] = Raise IndexError.
Proof.
  apply (clause_without_fields_raises "Expr" "Nil : " "Nil" []).
  reflexivity.
Defined.

(** ** The file system *)

(** X12: what a run does to the file system.  Paths keep naming the files
    they named, and no file but the one the output path names is changed.
    When the run succeeds that file holds the header, the body and the
    closing brace, and nothing of what it held before.  When the run raises
    while it parses, or because the output path cannot be opened, the file
    system is as it was.  When a write raises, the file holds a proper part
    of the text, from its beginning: what it held before is lost. *)
Theorem run_file_effects (G : globals) (fs : files) :
  locate (snd (main G fs)) = locate fs
  /\ encodable (snd (main G fs)) = encodable fs
  /\ (forall file f,
        locate fs (g_path_name G) = Some file -> f <> file ->
        data (snd (main G fs)) f = data fs f)
  /\ (locate fs (g_path_name G) = None -> snd (main G fs) = fs)
  /\ (fst (main G fs) = Ok tt ->
      exists body file,
        generate (g_base_name G) (g_grammar G)
        = Ok (header (g_base_name G), body, footer)
        /\ locate fs (g_path_name G) = Some file
        /\ data (snd (main G fs)) file
           = Some (concat (header (g_base_name G)) ++ concat body ++ "}"))
  /\ (forall e, fst (main G fs) = Raise e ->
        ((e = ValueError \/ e = IndexError)
         /\ generate (g_base_name G) (g_grammar G) = Raise e
         /\ snd (main G fs) = fs)
        \/ (e = OSError
            /\ locate fs (g_path_name G) = None
            /\ snd (main G fs) = fs)
        \/ ((e = OSError \/ e = UnicodeEncodeError)
            /\ exists file parts p q,
                 locate fs (g_path_name G) = Some file
                 /\ generate (g_base_name G) (g_grammar G) = Ok parts
                 /\ written parts = p ++ q /\ q <> []
                 /\ data (snd (main G fs)) file = Some p)).
Proof.
  pose proof (main_outcome G fs) as O.
  destruct (generate (g_base_name G) (g_grammar G)) as [parts|e0] eqn:E.
  - destruct (generate_Ok _ _ _ E) as (lines & body & _ & _ & ->).
    destruct (locate fs (g_path_name G)) as [file|].
    + destruct O as (Hl & He & Hd & _ & p & q & T & D & Q & R).
      split; [exact Hl|]. split; [exact He|]. split.
      { intros file' f [= <-]. apply Hd. }
      split; [discriminate|]. split.
      * intros S. exists body, file. split; [reflexivity|].
        split; [reflexivity|]. rewrite D. f_equal.
        rewrite (Q S), app_nil_r in T. rewrite <- T.
        unfold written, footer. cbn [concat]. now rewrite app_nil_r.
      * intros e S. destruct (R e S) as [Nq Ee]. right. right.
        split; [exact Ee|].
        exists file, (header (g_base_name G), body, footer), p, q.
        now repeat split.
    + rewrite O. cbn [fst snd]. split; [reflexivity|].
      split; [reflexivity|]. split; [discriminate|].
      split; [reflexivity|]. split; [discriminate|].
      intros e [= <-]. right. left. now repeat split.
  - rewrite O. cbn [fst snd]. split; [reflexivity|].
    split; [reflexivity|]. split; [reflexivity|]. split; [reflexivity|].
    split; [discriminate|].
    intros e [= <-]. left. split; [now apply (generate_raises _ _ _ E)|].
    now split.
Qed.
